(** * UE4Serialization.hpp: class-reference registry and cereal codecs

    A shallow embedding of [src/UE4Serialization.hpp]:
    - [TSubclassOfRegistration], the singleton that maps [int] identifiers to
      [TSubclassOf<AActor>] handles through a [std::map<int, TSubclassOfType>];
    - the [cereal] codecs for class references, [FVector], [FVector2D],
      [FBox], [FBox2D] and [TArray].

    The singleton's member functions are written in a small state monad over
    the contents of [TSubclassOfMap]; codecs write to a token list and read
    from one. *)

From stdpp Require Import gmap strings list fin_maps sorting.

Local Open Scope Z_scope.

(** ** The C++ [int] (32 bits, two's complement) *)

Module Int32.

(** [std::numeric_limits<int>::min()] and [max()]. *)
Definition INT_MIN : Z := -2147483648.
Definition INT_MAX : Z := 2147483647.

Definition in_range (z : Z) : Prop := INT_MIN ≤ z ≤ INT_MAX.

(** Conversion of an integer to [int] ([static_cast<int32>]), modulo 2^32. *)
Definition wrap (z : Z) : Z := (z - INT_MIN) `mod` 2 ^ 32 + INT_MIN.

(** [++NewId].  Below [INT_MAX] this is [z + 1]; at [INT_MAX] the C++
    standard leaves the result undefined and the usual targets wrap to
    [INT_MIN], which is what is written out here. *)
Definition incr (z : Z) : Z := wrap (z + 1).

(** [static_cast<size_type>] of an [int32]: conversion to a 64-bit
    unsigned integer. *)
Definition to_size_type (z : Z) : Z := z `mod` 2 ^ 64.

End Int32.
Import Int32.

(** ** Class-reference handles *)

(** [TSubclassOf<AActor>] wraps one [UClass*]; the pointer is kept as an
    address, [0] being [nullptr].  The default constructor gives the null
    class, and [operator==] compares the pointers. *)
Record TSubclassOfType : Type := TSubclassOf { Class : N }.

Definition TSubclassOfType_default : TSubclassOfType := TSubclassOf 0.

#[global] Instance TSubclassOfType_eq_dec : EqDecision TSubclassOfType.
Proof. solve_decision. Defined.

(** ** A state monad for member functions

    [St S A] is a computation over a mutable object of type [S] that either
    returns normally with a value and the new state, or does not return
    (a loop that never exits, an exception thrown by the archive). *)

Definition St (S A : Type) : Type := S → option (A * S).

Definition ret {S A} (a : A) : St S A := λ s, Some (a, s).

Definition bind {S A B} (c : St S A) (k : A → St S B) : St S B :=
  λ s, match c s with
       | Some (a, s') => k a s'
       | None => None
       end.

Definition no_return {S A} : St S A := λ _, None.

Notation "x <- c ;; k" := (bind c (λ x, k))
  (at level 20, c at level 99, k at level 200, only parsing).
Notation "c ;;; k" := (bind c (λ _, k))
  (at level 100, k at level 200, only parsing, right associativity).

(** ** [std::map<int, TSubclassOfType>] *)

Abbreviation registry := (gmap Z TSubclassOfType).

Module StdMap.

Definition key_le (x y : Z * TSubclassOfType) : Prop := x.1 ≤ y.1.

#[global] Instance key_le_dec x y : Decision (key_le x y).
Proof. unfold key_le. apply _. Defined.

(** The sequence a range-based [for] visits: all entries by ascending key. *)
Definition entries (m : registry) : list (Z * TSubclassOfType) :=
  merge_sort key_le (map_to_list m).

(** [m.find(k)]: [None] stands for [m.end()].  The map is not modified. *)
Definition find (k : Z) : St registry (option TSubclassOfType) :=
  λ m, Some (m !! k, m).

(** [m[k] = v]. *)
Definition assign (k : Z) (v : TSubclassOfType) : St registry unit :=
  λ m, Some (tt, <[k := v]> m).

(** [m.size()]. *)
Definition size_ : St registry nat := λ m, Some (size m, m).

(** [m.clear()]. *)
Definition clear : St registry unit := λ _, Some (tt, ∅).

(** [m.begin() .. m.end()]. *)
Definition iterate : St registry (list (Z * TSubclassOfType)) :=
  λ m, Some (entries m, m).

End StdMap.

(** ** [class TSubclassOfRegistration] *)

Module TSubclassOfRegistration.

(** [void RegisterTSubclassOf(int const id, TSubclassOfType const& subclass)] *)
Definition RegisterTSubclassOf_id (id : Z) (subclass : TSubclassOfType)
  : St registry unit :=
  StdMap.assign id subclass.

(** The body of the [for] loop of [GetIdOfTSubclassOf], over the entries
    still to visit. *)
Fixpoint GetIdOfTSubclassOf_loop (xs : list (Z * TSubclassOfType))
    (subclass : TSubclassOfType) : Z :=
  match xs with
  | [] => INT_MIN
  | x :: xs' =>
      if decide (x.2 = subclass) then x.1
      else GetIdOfTSubclassOf_loop xs' subclass
  end.

(** [int GetIdOfTSubclassOf(TSubclassOfType const subclass)] *)
Definition GetIdOfTSubclassOf (subclass : TSubclassOfType) : St registry Z :=
  xs <- StdMap.iterate ;;
  ret (GetIdOfTSubclassOf_loop xs subclass).

(** [TSubclassOfType GetTSubclassOfFromId(int const id)] *)
Definition GetTSubclassOfFromId (id : Z) : St registry TSubclassOfType :=
  x <- StdMap.find id ;;
  match x with
  | Some second => ret second
  | None => ret TSubclassOfType_default
  end.

(** [int GetNumberOfRegistrations() const] *)
Definition GetNumberOfRegistrations : St registry Z :=
  n <- StdMap.size_ ;;
  ret (wrap (Z.of_nat n)).

(** [void UnregsterAll()] *)
Definition UnregsterAll : St registry unit := StdMap.clear.

(** The [while] loop of [GetNextID], entered with the current [NewId].
    [fuel] bounds the number of probes; running out of it stands for a
    loop that has not exited yet. *)
Fixpoint GetNextID_loop (fuel : nat) (NewId : Z) : St registry Z :=
  match fuel with
  | O => no_return
  | S fuel' =>
      Id <- StdMap.find NewId ;;
      match Id with
      | None => ret NewId
      | Some _ => GetNextID_loop fuel' (incr NewId)
      end
  end.

(** [int GetNextID()].  The loop probes pairwise different identifiers
    until it has gone through all 2^32 of them, so a loop that exits does
    so within [size + 1] probes (lemma [GetNextID_loop_fuel_adequate]
    below); that is the fuel given here. *)
Definition GetNextID : St registry Z :=
  n <- StdMap.size_ ;;
  GetNextID_loop (S n) (INT_MIN + 1).

(** [void RegisterTSubclassOf(TSubclassOfType const& subclass)] *)
Definition RegisterTSubclassOf (subclass : TSubclassOfType)
  : St registry unit :=
  NewId <- GetNextID ;;
  StdMap.assign NewId subclass.

End TSubclassOfRegistration.
Import TSubclassOfRegistration.

(** The public member functions as data, to speak of "every operation". *)
Inductive call : Type :=
| CallRegisterWithId (id : Z) (subclass : TSubclassOfType)
| CallRegister (subclass : TSubclassOfType)
| CallGetId (subclass : TSubclassOfType)
| CallGetFromId (id : Z)
| CallGetNumberOfRegistrations
| CallUnregsterAll.

(** The registry after a call, when the call returns. *)
Definition after {A} (c : St registry A) (m : registry) : option registry :=
  snd <$> c m.

Definition run_call (c : call) (m : registry) : option registry :=
  match c with
  | CallRegisterWithId id subclass => after (RegisterTSubclassOf_id id subclass) m
  | CallRegister subclass => after (RegisterTSubclassOf subclass) m
  | CallGetId subclass => after (GetIdOfTSubclassOf subclass) m
  | CallGetFromId id => after (GetTSubclassOfFromId id) m
  | CallGetNumberOfRegistrations => after GetNumberOfRegistrations m
  | CallUnregsterAll => after UnregsterAll m
  end.

(** [RegisterTSubclassOf(subclass)] once per handle of [subclasses], in order;
    returns the identifier each call stored its handle under. *)
Fixpoint RegisterTSubclassOf_each (subclasses : list TSubclassOfType)
    : St registry (list Z) :=
  match subclasses with
  | [] => ret []
  | subclass :: rest =>
      NewId <- GetNextID ;;
      StdMap.assign NewId subclass ;;;
      ids <- RegisterTSubclassOf_each rest ;;
      ret (NewId :: ids)
  end.

(** The same calls through the member function itself. *)
Fixpoint RegisterTSubclassOf_calls (subclasses : list TSubclassOfType)
    : St registry unit :=
  match subclasses with
  | [] => ret tt
  | subclass :: rest =>
      RegisterTSubclassOf subclass ;;; RegisterTSubclassOf_calls rest
  end.

(** A registry to try the member functions on: the handle [7] is registered
    twice. *)
Definition example_registry : registry :=
  <[INT_MIN + 1 := TSubclassOf 7]>
    (<[INT_MIN + 2 := TSubclassOf 8]>
       (<[100 := TSubclassOf 7]> (<[5 := TSubclassOf 9]> ∅))).

(** ** The archive *)

(** A [float], kept as its IEEE-754 binary32 bit pattern. *)
Record float : Type := FloatBits { float_bits : Z }.

#[global] Instance float_eq_dec : EqDecision float.
Proof. solve_decision. Defined.

Module Archive.

(** What an archive carries.  A [float] travels as its 32-bit pattern: the
    codecs move it and never compute with it.  [TokName] is the name of a
    name-value pair; a format without names is the same sequence with the
    [TokName]s erased. *)
Inductive token : Type :=
| TokInt (x : Z)
| TokFloat (x : float)
| TokSizeTag (size : Z)
| TokName (name : string).

#[global] Instance token_eq_dec : EqDecision token.
Proof. solve_decision. Defined.

(** An output archive holds what was written so far, an input archive what
    is still to read. *)
Inductive archive : Type :=
| Saving (written : list token)
| Loading (unread : list token).

(** What a codec can touch: the archive it is handed and the
    process-wide [TSubclassOfRegistration::instance()]. *)
Record world : Type := World { world_archive : archive; world_registry : registry }.

(** [A::is_loading::value] *)
Definition is_loading : St world bool :=
  λ w, match world_archive w with
       | Saving _ => Some (false, w)
       | Loading _ => Some (true, w)
       end.

(** Writing to an input archive or reading from an output archive does not
    type-check in C++; reading past the end, or a value of another kind
    than the one asked for, makes the archive throw. *)
Definition write (t : token) : St world unit :=
  λ w, match world_archive w with
       | Saving out => Some (tt, World (Saving (out ++ [t])) (world_registry w))
       | Loading _ => None
       end.

Definition read : St world token :=
  λ w, match world_archive w with
       | Loading (t :: rest) => Some (t, World (Loading rest) (world_registry w))
       | _ => None
       end.

(** [TSubclassOfRegistration::instance().f(...)] *)
Definition instance {A} (f : St registry A) : St world A :=
  λ w, match f (world_registry w) with
       | Some (a, m) => Some (a, World (world_archive w) m)
       | None => None
       end.

(** [ar(x)] for [int& x]: an output archive writes [x], an input archive
    reads a new value for it. *)
Definition load_int : St world Z :=
  t <- read ;;
  match t with TokInt y => ret y | _ => no_return end.

Definition ar_int (x : Z) : St world Z :=
  l <- is_loading ;;
  if l : bool then load_int else write (TokInt x) ;;; ret x.

(** [ar(x)] for [float& x]. *)
Definition load_float : St world float :=
  t <- read ;;
  match t with TokFloat y => ret y | _ => no_return end.

Definition ar_float (x : float) : St world float :=
  l <- is_loading ;;
  if l : bool then load_float else write (TokFloat x) ;;; ret x.

(** [ar(make_size_tag(n))] on an output archive. *)
Definition save_size_tag (n : Z) : St world unit := write (TokSizeTag n).

(** [ar(make_size_tag(size))] on an input archive. *)
Definition load_size_tag : St world Z :=
  t <- read ;;
  match t with TokSizeTag n => ret n | _ => no_return end.

(** [ar(make_nvp(name, x))], where [serialize_x] is what [ar(x)] does. *)
Definition make_nvp {A} (name : string) (serialize_x : St world A) : St world A :=
  l <- is_loading ;;
  if l : bool then
    t <- read ;;
    match t with
    | TokName n => if decide (n = name) then serialize_x else no_return
    | _ => no_return
    end
  else
    write (TokName name) ;;; serialize_x.

(** A type [ar(x)] accepts: [serialize] is what [ar(x)] does with [x]; it
    returns the object as the call leaves it. *)
Class Codec (E : Type) : Type := {
  serialize : E → St world E;
  (** [E()], what [TArray::SetNum] fills new slots with *)
  default_constructed : E
}.

End Archive.
Import Archive.

(** ** The engine's value types, as far as the codecs use them *)

Module FVector.
Record t : Type := mk { X : float; Y : float; Z : float }.
End FVector.

Module FVector2D.
Record t : Type := mk { X : float; Y : float }.
End FVector2D.

(** [FBox] has the members [Min], [Max] and the flag [IsValid] ([uint8]). *)
Module FBox.
Record t : Type := mk { Min : FVector.t; Max : FVector.t; IsValid : Z }.
End FBox.

(** [FBox2D] has the members [Min], [Max] and the flag [bIsValid]. *)
Module FBox2D.
Record t : Type := mk { Min : FVector2D.t; Max : FVector2D.t; bIsValid : bool }.
End FBox2D.

#[global] Instance FVector_eq_dec : EqDecision FVector.t.
Proof. solve_decision. Defined.
#[global] Instance FVector2D_eq_dec : EqDecision FVector2D.t.
Proof. solve_decision. Defined.
#[global] Instance FBox_eq_dec : EqDecision FBox.t.
Proof. solve_decision. Defined.
#[global] Instance FBox2D_eq_dec : EqDecision FBox2D.t.
Proof. solve_decision. Defined.

(** [TArray<E>]: its elements in index order.  [Num()] is an [int32]. *)
Module TArray.

Definition Num {E} (a : list E) : Z := Z.of_nat (length a).

(** [SetNum(NewNum)]: keeps the first [NewNum] elements and appends
    default-constructed ones up to [NewNum]; a negative [NewNum] fails the
    engine's range check. *)
Definition SetNum {E} (dflt : E) (NewNum : Z) (a : list E) : option (list E) :=
  if decide (NewNum < 0) then None
  else Some (resize (Z.to_nat NewNum) dflt a).

End TArray.

(** ** [namespace cereal] *)

Module cereal.

(** [serialize(A& ar, TSubclassOfType& obj)] *)
Definition serialize_TSubclassOfType (obj : TSubclassOfType)
  : St world TSubclassOfType :=
  l <- is_loading ;;
  if l : bool then
    x <- load_int ;;
    instance (GetTSubclassOfFromId x)
  else
    id <- instance (GetIdOfTSubclassOf obj) ;;
    ar_int id ;;;
    ret obj.

(** [serialize(A& ar, FVector& obj)] *)
Definition serialize_FVector (obj : FVector.t) : St world FVector.t :=
  X <- ar_float (FVector.X obj) ;;
  Y <- ar_float (FVector.Y obj) ;;
  Z <- ar_float (FVector.Z obj) ;;
  ret (FVector.mk X Y Z).

(** [serialize(A& a, FVector2D& in)] *)
Definition serialize_FVector2D (in_ : FVector2D.t) : St world FVector2D.t :=
  X <- make_nvp "X" (ar_float (FVector2D.X in_)) ;;
  Y <- make_nvp "Y" (ar_float (FVector2D.Y in_)) ;;
  ret (FVector2D.mk X Y).

(** [serialize(A& ar, FBox& in)]: the three name-value pairs of the one
    [ar(...)] call are processed left to right, each on the object as the
    previous one left it. *)
Definition serialize_FBox (in_ : FBox.t) : St world FBox.t :=
  Max1 <- make_nvp "IsValid" (serialize_FVector (FBox.Max in_)) ;;
  Min1 <- make_nvp "Min" (serialize_FVector (FBox.Min in_)) ;;
  Max2 <- make_nvp "Max" (serialize_FVector Max1) ;;
  ret (FBox.mk Min1 Max2 (FBox.IsValid in_)).

(** [serialize(A& ar, FBox2D& in)] *)
Definition serialize_FBox2D (in_ : FBox2D.t) : St world FBox2D.t :=
  Max1 <- make_nvp "bIsValid" (serialize_FVector2D (FBox2D.Max in_)) ;;
  Min1 <- make_nvp "Min" (serialize_FVector2D (FBox2D.Min in_)) ;;
  Max2 <- make_nvp "Max" (serialize_FVector2D Max1) ;;
  ret (FBox2D.mk Min1 Max2 (FBox2D.bIsValid in_)).

(** [for (auto&& e : a) ar(e);] *)
Fixpoint for_each {E} (ar_e : E → St world E) (a : list E) : St world (list E) :=
  match a with
  | [] => ret []
  | e :: a' =>
      e' <- ar_e e ;;
      a'' <- for_each ar_e a' ;;
      ret (e' :: a'')
  end.

(** [CEREAL_SAVE_FUNCTION_NAME(A& a, const TArray<E, L>& in)] *)
Definition save_TArray `{Codec E} (in_ : list E) : St world unit :=
  save_size_tag (to_size_type (TArray.Num in_)) ;;;
  for_each serialize in_ ;;;
  ret tt.

Definition from_option {S A} (o : option A) : St S A :=
  λ s, match o with Some a => Some (a, s) | None => None end.

(** [CEREAL_LOAD_FUNCTION_NAME(A& a, TArray<E, L>& out)] *)
Definition load_TArray `{Codec E} (out : list E) : St world (list E) :=
  size <- load_size_tag ;;
  out1 <- from_option (TArray.SetNum default_constructed (wrap size) out) ;;
  for_each serialize out1.

#[global] Instance Codec_int : Codec Z :=
  {| serialize := ar_int; default_constructed := 0 |}.

#[global] Instance Codec_float : Codec float :=
  {| serialize := ar_float; default_constructed := FloatBits 0 |}.

#[global] Instance Codec_TSubclassOfType : Codec TSubclassOfType :=
  {| serialize := serialize_TSubclassOfType;
     default_constructed := TSubclassOfType_default |}.

#[global] Instance Codec_FVector : Codec FVector.t :=
  {| serialize := serialize_FVector;
     default_constructed := FVector.mk (FloatBits 0) (FloatBits 0) (FloatBits 0) |}.

#[global] Instance Codec_FVector2D : Codec FVector2D.t :=
  {| serialize := serialize_FVector2D;
     default_constructed := FVector2D.mk (FloatBits 0) (FloatBits 0) |}.

#[global] Instance Codec_TArray `{Codec E} : Codec (list E) :=
  {| serialize a :=
       l <- is_loading ;;
       if l : bool then load_TArray a else save_TArray a ;;; ret a;
     default_constructed := [] |}.

End cereal.
Import cereal.

(** Saving [x] with a fresh output archive: the tokens written. *)
Definition saved {A} (ar_x : St world A) (m : registry) : option (list token) :=
  match ar_x (World (Saving []) m) with
  | Some (_, World (Saving out) _) => Some out
  | _ => None
  end.

(** Loading from [input]: the object read and the tokens left over. *)
Definition loaded {A} (ar_x : St world A) (input : list token) (m : registry)
  : option (A * list token) :=
  match ar_x (World (Loading input) m) with
  | Some (a, World (Loading rest) _) => Some (a, rest)
  | _ => None
  end.

(** The value a computation returns. *)
Definition result {S A} (c : St S A) (s : S) : option A := fst <$> c s.

(** The identifier the loop of [GetNextID] probes after [i] increments. *)
Fixpoint nth_probe (i : nat) (NewId : Z) : Z :=
  match i with
  | O => NewId
  | S i' => nth_probe i' (incr NewId)
  end.

(** ** Notions the statements below use *)

(** [h] is the handle of some entry. *)
Definition registered (m : registry) (h : TSubclassOfType) : Prop :=
  ∃ id, m !! id = Some h.

#[global] Instance registered_dec m h : Decision (registered m h).
Proof.
  destruct (decide (map_Exists (λ _ v, v = h) m)) as [Hex|Hnex].
  - left. destruct Hex as (id & v & Hid & ->). by exists id.
  - right. intros [id Hid]. apply Hnex. by exists id, h.
Defined.

(** No entry sits under [std::numeric_limits<int>::min()]. *)
Definition sentinel_free (m : registry) : Prop := m !! INT_MIN = None.

(** [id] is what a first-fit ascending scan from [INT_MIN + 1] finds in [m]. *)
Definition first_fit (m : registry) (id : Z) : Prop :=
  INT_MIN + 1 ≤ id ∧ m !! id = None
  ∧ ∀ j, INT_MIN + 1 ≤ j < id → is_Some (m !! j).

(** Each of [ids] is the first fit in the registry as the earlier
    registrations left it. *)
Fixpoint first_fit_trace (m : registry) (hs : list TSubclassOfType)
    (ids : list Z) : Prop :=
  match hs, ids with
  | [], [] => True
  | h :: hs', id :: ids' => first_fit m id ∧ first_fit_trace (<[id := h]> m) hs' ids'
  | _, _ => False
  end.

(** Calls that keep [INT_MIN] out of the keys: an explicit identifier other
    than [INT_MIN], an automatic one while [INT_MIN + 1 .. INT_MAX] has room,
    and any of the other member functions. *)
Definition keeps_sentinel_free (m : registry) (c : call) : Prop :=
  match c with
  | CallRegisterWithId id _ => id ≠ INT_MIN
  | CallRegister _ => ∃ f, INT_MIN + 1 ≤ f ≤ INT_MAX ∧ m !! f = None
  | _ => True
  end.

(** [fs] are pairwise different identifiers from [INT_MIN + 1 .. INT_MAX]
    that are not keys of [m]. *)
Definition free_identifiers (m : registry) (fs : list Z) : Prop :=
  NoDup fs ∧ Forall (λ f, INT_MIN + 1 ≤ f ≤ INT_MAX ∧ m !! f = None) fs.

(** What [n] automatic registrations are to achieve on [m]. *)
Definition auto_registration_ok (m : registry) (hs : list TSubclassOfType)
    : Prop :=
  ∃ ids m',
    RegisterTSubclassOf_each hs m = Some (ids, m')
    ∧ length ids = length hs
    ∧ NoDup ids
    ∧ Forall (λ id, INT_MIN < id ≤ INT_MAX ∧ m !! id = None) ids
    ∧ size m' = (size m + length hs)%nat
    ∧ (∀ i id h, ids !! i = Some id → hs !! i = Some h → m' !! id = Some h)
    ∧ m ⊆ m'
    ∧ first_fit_trace m hs ids.

(** A registry with an entry under every identifier from [INT_MIN + 1] to
    [INT_MAX]. *)
Definition saturated_registry : registry :=
  list_to_map ((λ id, (id, TSubclassOf 1)) <$> seqZ (INT_MIN + 1) (INT_MAX - INT_MIN)).

(** An element and the tokens it travels as, at registry [m]: saving it
    appends exactly these tokens, and loading from them gives the element
    back, whatever the destination held; neither touches the registry. *)
Definition travels_as `{Codec E} (m : registry) (e : E) (toks : list token)
    : Prop :=
  (∀ out, serialize e (World (Saving out) m)
          = Some (e, World (Saving (out ++ toks)) m))
  ∧ (∀ d rest, serialize d (World (Loading (toks ++ rest)) m)
               = Some (e, World (Loading rest) m)).

(** The tokens an [FVector] is written as. *)
Definition FVector_tokens (v : FVector.t) : list token :=
  [TokFloat (FVector.X v); TokFloat (FVector.Y v); TokFloat (FVector.Z v)].

(** The tokens [serialize(A&, FBox&)] writes. *)
Definition FBox_tokens (b : FBox.t) : list token :=
  TokName "IsValid" :: FVector_tokens (FBox.Max b)
  ++ TokName "Min" :: FVector_tokens (FBox.Min b)
  ++ TokName "Max" :: FVector_tokens (FBox.Max b).

Definition FVector_zero : FVector.t :=
  FVector.mk (FloatBits 0) (FloatBits 0) (FloatBits 0).

(** A valid box of zero extent, and the box [FBox(ForceInit)] makes. *)
Definition FBox_zero_extent : FBox.t := FBox.mk FVector_zero FVector_zero 1.
Definition FBox_ForceInit : FBox.t := FBox.mk FVector_zero FVector_zero 0.

Definition FVector2D_zero : FVector2D.t := FVector2D.mk (FloatBits 0) (FloatBits 0).
Definition FBox2D_zero_extent : FBox2D.t :=
  FBox2D.mk FVector2D_zero FVector2D_zero true.
Definition FBox2D_ForceInit : FBox2D.t :=
  FBox2D.mk FVector2D_zero FVector2D_zero false.

(** Saving a class reference and loading what was written into a
    default-constructed handle, at registry [m]. *)
Definition roundtrip_TSubclassOfType (m : registry) (h : TSubclassOfType)
    : option TSubclassOfType :=
  match saved (serialize_TSubclassOfType h) m with
  | Some toks =>
      fst <$> loaded (serialize_TSubclassOfType TSubclassOfType_default) toks m
  | None => None
  end.

(** The keys of [m] from [INT_MIN + 1] upwards are exactly the first [k]
    identifiers: the state automatic registrations alone lead to. *)
Definition dense_up_to (m : registry) (k : Z) : Prop :=
  0 ≤ k ∧ ∀ j, INT_MIN + 1 ≤ j ≤ INT_MAX →
               (is_Some (m !! j) ↔ j < INT_MIN + 1 + k).

(** ** Further value types and their codecs *)

(** [FRotator]: the members are declared [Pitch], [Yaw], [Roll]. *)
Module FRotator.
Record t : Type := mk { Pitch : float; Yaw : float; Roll : float }.
End FRotator.

Module FQuat.
Record t : Type := mk { X : float; Y : float; Z : float; W : float }.
End FQuat.

(** [FTransform] keeps a rotation, a translation and a scale; the codec
    goes through [GetRotation]/[SetRotation] and their like, which read and
    replace one component each. *)
Module FTransform.
Record t : Type :=
  mk { Rotation : FQuat.t; Translation : FVector.t; Scale3D : FVector.t }.
Definition GetRotation (x : t) : FQuat.t := Rotation x.
Definition GetScale3D (x : t) : FVector.t := Scale3D x.
Definition GetTranslation (x : t) : FVector.t := Translation x.
Definition SetRotation (r : FQuat.t) (x : t) : t := mk r (Translation x) (Scale3D x).
Definition SetScale3D (s : FVector.t) (x : t) : t := mk (Rotation x) (Translation x) s.
Definition SetTranslation (v : FVector.t) (x : t) : t := mk (Rotation x) v (Scale3D x).
End FTransform.

Module FCapsuleShape.
Record t : Type :=
  mk { Center : FVector.t; Radius : float; Orientation : FVector.t; Length : float }.
End FCapsuleShape.

Module FLinearColor.
Record t : Type := mk { R : float; G : float; B : float; A : float }.
End FLinearColor.

Module FPlane.
Record t : Type := mk { X : float; Y : float; Z : float; W : float }.
End FPlane.

Module FSphere.
Record t : Type := mk { Center : FVector.t; W : float }.
End FSphere.

Module FTwoVectors.
Record t : Type := mk { v1 : FVector.t; v2 : FVector.t }.
End FTwoVectors.

Module FOrientedBox.
Record t : Type :=
  mk { Center : FVector.t; AxisX : FVector.t; AxisY : FVector.t; AxisZ : FVector.t;
       ExtentX : float; ExtentY : float; ExtentZ : float }.
End FOrientedBox.

(** [FMatrix]: [M[i][j]] is column [j] of row [i]. *)
Module FMatrix.
Record row : Type := mkrow { c0 : float; c1 : float; c2 : float; c3 : float }.
Record t : Type := mk { r0 : row; r1 : row; r2 : row; r3 : row }.
End FMatrix.

Module FIntPoint.
Record t : Type := mk { X : Z; Y : Z }.
End FIntPoint.

Module FIntRect.
Record t : Type := mk { Min : FIntPoint.t; Max : FIntPoint.t }.
End FIntRect.

Module FIntVector.
Record t : Type := mk { X : BinNums.Z; Y : BinNums.Z; Z : BinNums.Z }.
End FIntVector.

Module FIntVector4.
Record t : Type := mk { X : BinNums.Z; Y : BinNums.Z; Z : BinNums.Z; W : BinNums.Z }.
End FIntVector4.

(** The kinds that are saved from [GetVector()] (or [GetMatrix]) and
    loaded through their constructor. *)
Module FQuat2D.
Record t : Type := mk { GetVector : FVector2D.t }.
End FQuat2D.

Module FScale.
Record t : Type := mk { GetVector : FVector.t }.
End FScale.

Module FScale2D.
Record t : Type := mk { GetVector : FVector2D.t }.
End FScale2D.

Module FShear2D.
Record t : Type := mk { GetVector : FVector2D.t }.
End FShear2D.

Module FMatrix2x2.
Record t : Type := mk { m00 : float; m01 : float; m10 : float; m11 : float }.
(** [GetMatrix(A, B, C, D)] *)
Definition GetMatrix (x : t) : float * float * float * float :=
  (m00 x, m01 x, m10 x, m11 x).
End FMatrix2x2.

(** [TInterval<E>] *)
Module TInterval.
Record t (E : Type) : Type := mk { Min : E; Max : E }.
Arguments mk {E} _ _.
Arguments Min {E} _.
Arguments Max {E} _.
End TInterval.

(** Modelled from the spec: the engine's [TSet<E>] ([Num], [Empty],
    [Reserve], [Emplace] and its iteration), which is not part of the source.
    The set is the list of its elements; the order of the list stands for
    the iteration order, which is implementation-defined, and the statements
    about sets below speak of the elements only, not of their order.
    [Emplace] enforces uniqueness: an element the set already has collapses
    into it.  [Reserve] only allocates. *)
Module TSet.
Definition Num {E} (s : list E) : Z := Z.of_nat (length s).
Definition Empty {E} (s : list E) : list E := [].
Definition Reserve {E} (Number : Z) (s : list E) : list E := s.
Definition Emplace `{EqDecision E} (e : E) (s : list E) : list E :=
  if decide (e ∈ s) then s else s ++ [e].
End TSet.

(** Modelled from the spec: the engine's [TMap<K, V>] ([Num], [Empty],
    [Reserve], [Emplace] and its iteration), which is not part of the source.
    The map is the list of its pairs; the order of the list stands for the
    iteration order, which is implementation-defined, and the statements
    about maps below speak of the pairs only, not of their order.  [Emplace]
    of a key the map already has replaces its pair: the last one inserted
    wins.  [Reserve] only allocates. *)
Module TMap.
Definition Num {K V} (m : list (K * V)) : Z := Z.of_nat (length m).
Definition Empty {K V} (m : list (K * V)) : list (K * V) := [].
Definition Reserve {K V} (Number : Z) (m : list (K * V)) : list (K * V) := m.
Fixpoint Emplace `{EqDecision K} {V} (k : K) (v : V) (m : list (K * V))
    : list (K * V) :=
  match m with
  | [] => [(k, v)]
  | p :: m' => if decide (p.1 = k) then (k, v) :: m' else p :: Emplace k v m'
  end.
End TMap.

(** [serialize(A& ar, FRotator& obj)] *)
Definition serialize_FRotator (obj : FRotator.t) : St world FRotator.t :=
  Pitch <- ar_float (FRotator.Pitch obj) ;;
  Roll <- ar_float (FRotator.Roll obj) ;;
  Yaw <- ar_float (FRotator.Yaw obj) ;;
  ret (FRotator.mk Pitch Yaw Roll).

(** [serialize(A& ar, FQuat& obj)] *)
Definition serialize_FQuat (obj : FQuat.t) : St world FQuat.t :=
  W <- ar_float (FQuat.W obj) ;;
  X <- ar_float (FQuat.X obj) ;;
  Y <- ar_float (FQuat.Y obj) ;;
  Z <- ar_float (FQuat.Z obj) ;;
  ret (FQuat.mk X Y Z W).

(** What the locals a load function declares hold before they are read
    into; the reads overwrite them. *)
Definition float_local : float := FloatBits 0.
Definition FVector_local : FVector.t := FVector.mk float_local float_local float_local.
Definition FVector2D_local : FVector2D.t := FVector2D.mk float_local float_local.
Definition FQuat_local : FQuat.t :=
  FQuat.mk float_local float_local float_local float_local.

(** [serialize(A& ar, FTransform& obj)] *)
Definition serialize_FTransform (obj : FTransform.t) : St world FTransform.t :=
  l <- is_loading ;;
  if l : bool then
    rot <- serialize_FQuat FQuat_local ;;
    scale <- serialize_FVector FVector_local ;;
    trans <- serialize_FVector FVector_local ;;
    ret (FTransform.SetTranslation trans
           (FTransform.SetScale3D scale (FTransform.SetRotation rot obj)))
  else
    serialize_FQuat (FTransform.GetRotation obj) ;;;
    serialize_FVector (FTransform.GetScale3D obj) ;;;
    serialize_FVector (FTransform.GetTranslation obj) ;;;
    ret obj.

(** [serialize(A& ar, FCapsuleShape& in)] *)
Definition serialize_FCapsuleShape (in_ : FCapsuleShape.t) : St world FCapsuleShape.t :=
  Center <- make_nvp "Center" (serialize_FVector (FCapsuleShape.Center in_)) ;;
  Radius <- make_nvp "Radius" (ar_float (FCapsuleShape.Radius in_)) ;;
  Orientation <- make_nvp "Orientation" (serialize_FVector (FCapsuleShape.Orientation in_)) ;;
  Length <- make_nvp "Length" (ar_float (FCapsuleShape.Length in_)) ;;
  ret (FCapsuleShape.mk Center Radius Orientation Length).

(** [serialize(A& a, FIntPoint& in)] *)
Definition serialize_FIntPoint (in_ : FIntPoint.t) : St world FIntPoint.t :=
  X <- make_nvp "X" (ar_int (FIntPoint.X in_)) ;;
  Y <- make_nvp "Y" (ar_int (FIntPoint.Y in_)) ;;
  ret (FIntPoint.mk X Y).

(** [serialize(A& ar, FIntRect& in)] *)
Definition serialize_FIntRect (in_ : FIntRect.t) : St world FIntRect.t :=
  Min <- make_nvp "Min" (serialize_FIntPoint (FIntRect.Min in_)) ;;
  Max <- make_nvp "Max" (serialize_FIntPoint (FIntRect.Max in_)) ;;
  ret (FIntRect.mk Min Max).

(** [serialize(A& ar, FIntVector& in)] *)
Definition serialize_FIntVector (in_ : FIntVector.t) : St world FIntVector.t :=
  X <- make_nvp "X" (ar_int (FIntVector.X in_)) ;;
  Y <- make_nvp "Y" (ar_int (FIntVector.Y in_)) ;;
  Z <- make_nvp "Z" (ar_int (FIntVector.Z in_)) ;;
  ret (FIntVector.mk X Y Z).

(** [serialize(A& a, FIntVector4& in)] *)
Definition serialize_FIntVector4 (in_ : FIntVector4.t) : St world FIntVector4.t :=
  X <- make_nvp "X" (ar_int (FIntVector4.X in_)) ;;
  Y <- make_nvp "Y" (ar_int (FIntVector4.Y in_)) ;;
  Z <- make_nvp "Z" (ar_int (FIntVector4.Z in_)) ;;
  W <- make_nvp "W" (ar_int (FIntVector4.W in_)) ;;
  ret (FIntVector4.mk X Y Z W).

(** [serialize(A& ar, FLinearColor& in)] *)
Definition serialize_FLinearColor (in_ : FLinearColor.t) : St world FLinearColor.t :=
  R <- make_nvp "R" (ar_float (FLinearColor.R in_)) ;;
  G <- make_nvp "G" (ar_float (FLinearColor.G in_)) ;;
  B <- make_nvp "B" (ar_float (FLinearColor.B in_)) ;;
  A <- make_nvp "A" (ar_float (FLinearColor.A in_)) ;;
  ret (FLinearColor.mk R G B A).

(** One row of [serialize(A& ar, FMatrix& in)]: four statements. *)
Definition serialize_FMatrix_row (n0 n1 n2 n3 : string) (r : FMatrix.row)
    : St world FMatrix.row :=
  a <- make_nvp n0 (ar_float (FMatrix.c0 r)) ;;
  b <- make_nvp n1 (ar_float (FMatrix.c1 r)) ;;
  c <- make_nvp n2 (ar_float (FMatrix.c2 r)) ;;
  d <- make_nvp n3 (ar_float (FMatrix.c3 r)) ;;
  ret (FMatrix.mkrow a b c d).

(** [serialize(A& ar, FMatrix& in)] *)
Definition serialize_FMatrix (in_ : FMatrix.t) : St world FMatrix.t :=
  r0 <- serialize_FMatrix_row "m00" "m01" "m02" "m03" (FMatrix.r0 in_) ;;
  r1 <- serialize_FMatrix_row "m10" "m11" "m12" "m13" (FMatrix.r1 in_) ;;
  r2 <- serialize_FMatrix_row "m20" "m21" "m22" "m23" (FMatrix.r2 in_) ;;
  r3 <- serialize_FMatrix_row "m30" "m31" "m32" "m33" (FMatrix.r3 in_) ;;
  ret (FMatrix.mk r0 r1 r2 r3).

(** [CEREAL_SAVE_FUNCTION_NAME(A& ar, const FMatrix2x2& in)] *)
Definition save_FMatrix2x2 (in_ : FMatrix2x2.t) : St world unit :=
  let '(m00, m01, m10, m11) := FMatrix2x2.GetMatrix in_ in
  make_nvp "m00" (ar_float m00) ;;;
  make_nvp "m01" (ar_float m01) ;;;
  make_nvp "m10" (ar_float m10) ;;;
  make_nvp "m11" (ar_float m11) ;;;
  ret tt.

(** [CEREAL_LOAD_FUNCTION_NAME(A& ar, FMatrix2x2& out)] *)
Definition load_FMatrix2x2 (out : FMatrix2x2.t) : St world FMatrix2x2.t :=
  m00 <- make_nvp "m00" (ar_float float_local) ;;
  m01 <- make_nvp "m01" (ar_float float_local) ;;
  m10 <- make_nvp "m10" (ar_float float_local) ;;
  m11 <- make_nvp "m11" (ar_float float_local) ;;
  ret (FMatrix2x2.mk m00 m01 m10 m11).

(** [serialize(A& ar, FOrientedBox& in)] *)
Definition serialize_FOrientedBox (in_ : FOrientedBox.t) : St world FOrientedBox.t :=
  AxisX <- make_nvp "AxisX" (serialize_FVector (FOrientedBox.AxisX in_)) ;;
  AxisY <- make_nvp "AxisY" (serialize_FVector (FOrientedBox.AxisY in_)) ;;
  AxisZ <- make_nvp "AxisZ" (serialize_FVector (FOrientedBox.AxisZ in_)) ;;
  Center <- make_nvp "Center" (serialize_FVector (FOrientedBox.Center in_)) ;;
  ExtentX <- make_nvp "ExtentX" (ar_float (FOrientedBox.ExtentX in_)) ;;
  ExtentY <- make_nvp "ExtentY" (ar_float (FOrientedBox.ExtentY in_)) ;;
  ExtentZ <- make_nvp "ExtentZ" (ar_float (FOrientedBox.ExtentZ in_)) ;;
  ret (FOrientedBox.mk Center AxisX AxisY AxisZ ExtentX ExtentY ExtentZ).

(** [serialize(A& ar, FPlane& in)] *)
Definition serialize_FPlane (in_ : FPlane.t) : St world FPlane.t :=
  X <- make_nvp "X" (ar_float (FPlane.X in_)) ;;
  Y <- make_nvp "Y" (ar_float (FPlane.Y in_)) ;;
  Z <- make_nvp "Z" (ar_float (FPlane.Z in_)) ;;
  W <- make_nvp "W" (ar_float (FPlane.W in_)) ;;
  ret (FPlane.mk X Y Z W).

(** The two name-value pairs ["X"], ["Y"] the 2D kinds write from their
    [buffer] and read into it. *)
Definition ar_buffer2D (buffer : FVector2D.t) : St world FVector2D.t :=
  X <- make_nvp "X" (ar_float (FVector2D.X buffer)) ;;
  Y <- make_nvp "Y" (ar_float (FVector2D.Y buffer)) ;;
  ret (FVector2D.mk X Y).

(** The three pairs ["X"], ["Y"], ["Z"] of [FScale]. *)
Definition ar_buffer3D (buffer : FVector.t) : St world FVector.t :=
  X <- make_nvp "X" (ar_float (FVector.X buffer)) ;;
  Y <- make_nvp "Y" (ar_float (FVector.Y buffer)) ;;
  Z <- make_nvp "Z" (ar_float (FVector.Z buffer)) ;;
  ret (FVector.mk X Y Z).

(** [CEREAL_SAVE_FUNCTION_NAME(A& ar, const FQuat2D& in)] and
    [CEREAL_LOAD_FUNCTION_NAME(A& ar, FQuat2D& out)] *)
Definition save_FQuat2D (in_ : FQuat2D.t) : St world unit :=
  ar_buffer2D (FQuat2D.GetVector in_) ;;; ret tt.
Definition load_FQuat2D (out : FQuat2D.t) : St world FQuat2D.t :=
  buffer <- ar_buffer2D FVector2D_local ;; ret (FQuat2D.mk buffer).

(** [CEREAL_SAVE_FUNCTION_NAME(A& ar, FScale const& in)] and its load *)
Definition save_FScale (in_ : FScale.t) : St world unit :=
  ar_buffer3D (FScale.GetVector in_) ;;; ret tt.
Definition load_FScale (out : FScale.t) : St world FScale.t :=
  buffer <- ar_buffer3D FVector_local ;; ret (FScale.mk buffer).

(** [CEREAL_SAVE_FUNCTION_NAME(A& ar, FScale2D const& in)] and its load *)
Definition save_FScale2D (in_ : FScale2D.t) : St world unit :=
  ar_buffer2D (FScale2D.GetVector in_) ;;; ret tt.
Definition load_FScale2D (out : FScale2D.t) : St world FScale2D.t :=
  buffer <- ar_buffer2D FVector2D_local ;; ret (FScale2D.mk buffer).

(** [CEREAL_SAVE_FUNCTION_NAME(A& ar, const FShear2D& in)] and its load *)
Definition save_FShear2D (in_ : FShear2D.t) : St world unit :=
  ar_buffer2D (FShear2D.GetVector in_) ;;; ret tt.
Definition load_FShear2D (out : FShear2D.t) : St world FShear2D.t :=
  buffer <- ar_buffer2D FVector2D_local ;; ret (FShear2D.mk buffer).

(** [serialize(A& ar, FSphere& in)] *)
Definition serialize_FSphere (in_ : FSphere.t) : St world FSphere.t :=
  Center <- make_nvp "Center" (serialize_FVector (FSphere.Center in_)) ;;
  W <- make_nvp "W" (ar_float (FSphere.W in_)) ;;
  ret (FSphere.mk Center W).

(** [serialize(A& a, FTwoVectors& in)] *)
Definition serialize_FTwoVectors (in_ : FTwoVectors.t) : St world FTwoVectors.t :=
  v1 <- make_nvp "v1" (serialize_FVector (FTwoVectors.v1 in_)) ;;
  v2 <- make_nvp "v2" (serialize_FVector (FTwoVectors.v2 in_)) ;;
  ret (FTwoVectors.mk v1 v2).

(** [serialize(A& a, TInterval<E>& in)] *)
Definition serialize_TInterval `{Codec E} (in_ : TInterval.t E)
    : St world (TInterval.t E) :=
  Min <- make_nvp "Min" (serialize (TInterval.Min in_)) ;;
  Max <- make_nvp "Max" (serialize (TInterval.Max in_)) ;;
  ret (TInterval.mk Min Max).

(** What [ar(x)] does for a type with separate save and load functions. *)
Definition split_serialize {E} (save_x : E → St world unit)
    (load_x : E → St world E) (x : E) : St world E :=
  l <- is_loading ;;
  if l : bool then load_x x else save_x x ;;; ret x.

(** [ar(make_map_item(key, value))]: cereal's [MapItem] is the two pairs
    ["key"] and ["value"]. *)
Definition make_map_item `{Codec K} `{Codec V} (key : K) (value : V)
    : St world (K * V) :=
  k <- make_nvp "key" (serialize key) ;;
  v <- make_nvp "value" (serialize value) ;;
  ret (k, v).

(** [CEREAL_SAVE_FUNCTION_NAME(A& a, const TMap<K, V, L, F>& in)] *)
Definition save_TMap `{Codec K} `{Codec V} (in_ : list (K * V)) : St world unit :=
  save_size_tag (to_size_type (TMap.Num in_)) ;;;
  for_each (λ p, make_map_item p.1 p.2) in_ ;;;
  ret tt.

(** The [for (size_type i = 0; i < size; ++i)] loop of the [TMap] load,
    with [n] iterations to go. *)
Fixpoint load_TMap_loop `{Codec K} `{Codec V} `{EqDecision K} (n : nat)
    (out : list (K * V)) : St world (list (K * V)) :=
  match n with
  | O => ret out
  | S n' =>
      p <- make_map_item default_constructed default_constructed ;;
      load_TMap_loop n' (TMap.Emplace p.1 p.2 out)
  end.

(** [CEREAL_LOAD_FUNCTION_NAME(A& a, TMap<K, V, L, F>& out)] *)
Definition load_TMap `{Codec K} `{Codec V} `{EqDecision K} (out : list (K * V))
    : St world (list (K * V)) :=
  size <- load_size_tag ;;
  load_TMap_loop (Z.to_nat size) (TMap.Reserve size (TMap.Empty out)).

(** [CEREAL_SAVE_FUNCTION_NAME(A& a, const TSet<E, K, L>& in)] *)
Definition save_TSet `{Codec E} (in_ : list E) : St world unit :=
  save_size_tag (to_size_type (TSet.Num in_)) ;;;
  for_each serialize in_ ;;;
  ret tt.

(** The loop of the [TSet] load, with [n] iterations to go. *)
Fixpoint load_TSet_loop `{Codec E} `{EqDecision E} (n : nat) (out : list E)
    : St world (list E) :=
  match n with
  | O => ret out
  | S n' =>
      e <- serialize default_constructed ;;
      load_TSet_loop n' (TSet.Emplace e out)
  end.

(** [CEREAL_LOAD_FUNCTION_NAME(A& a, TSet<E, K, L>& out)] *)
Definition load_TSet `{Codec E} `{EqDecision E} (out : list E) : St world (list E) :=
  size <- load_size_tag ;;
  load_TSet_loop (Z.to_nat size) (TSet.Reserve size (TSet.Empty out)).

#[global] Instance Codec_FRotator : Codec FRotator.t :=
  {| serialize := serialize_FRotator;
     default_constructed := FRotator.mk float_local float_local float_local |}.
#[global] Instance Codec_FQuat : Codec FQuat.t :=
  {| serialize := serialize_FQuat; default_constructed := FQuat_local |}.
#[global] Instance Codec_FTransform : Codec FTransform.t :=
  {| serialize := serialize_FTransform;
     default_constructed := FTransform.mk FQuat_local FVector_local FVector_local |}.
#[global] Instance Codec_FCapsuleShape : Codec FCapsuleShape.t :=
  {| serialize := serialize_FCapsuleShape;
     default_constructed :=
       FCapsuleShape.mk FVector_local float_local FVector_local float_local |}.
#[global] Instance Codec_FIntPoint : Codec FIntPoint.t :=
  {| serialize := serialize_FIntPoint; default_constructed := FIntPoint.mk 0 0 |}.
#[global] Instance Codec_FIntRect : Codec FIntRect.t :=
  {| serialize := serialize_FIntRect;
     default_constructed := FIntRect.mk (FIntPoint.mk 0 0) (FIntPoint.mk 0 0) |}.
#[global] Instance Codec_FIntVector : Codec FIntVector.t :=
  {| serialize := serialize_FIntVector; default_constructed := FIntVector.mk 0 0 0 |}.
#[global] Instance Codec_FIntVector4 : Codec FIntVector4.t :=
  {| serialize := serialize_FIntVector4;
     default_constructed := FIntVector4.mk 0 0 0 0 |}.
#[global] Instance Codec_FLinearColor : Codec FLinearColor.t :=
  {| serialize := serialize_FLinearColor;
     default_constructed :=
       FLinearColor.mk float_local float_local float_local float_local |}.
#[global] Instance Codec_FMatrix : Codec FMatrix.t :=
  {| serialize := serialize_FMatrix;
     default_constructed :=
       let r := FMatrix.mkrow float_local float_local float_local float_local in
       FMatrix.mk r r r r |}.
#[global] Instance Codec_FMatrix2x2 : Codec FMatrix2x2.t :=
  {| serialize := split_serialize save_FMatrix2x2 load_FMatrix2x2;
     default_constructed :=
       FMatrix2x2.mk float_local float_local float_local float_local |}.
#[global] Instance Codec_FOrientedBox : Codec FOrientedBox.t :=
  {| serialize := serialize_FOrientedBox;
     default_constructed :=
       FOrientedBox.mk FVector_local FVector_local FVector_local FVector_local
         float_local float_local float_local |}.
#[global] Instance Codec_FPlane : Codec FPlane.t :=
  {| serialize := serialize_FPlane;
     default_constructed := FPlane.mk float_local float_local float_local float_local |}.
#[global] Instance Codec_FQuat2D : Codec FQuat2D.t :=
  {| serialize := split_serialize save_FQuat2D load_FQuat2D;
     default_constructed := FQuat2D.mk FVector2D_local |}.
#[global] Instance Codec_FScale : Codec FScale.t :=
  {| serialize := split_serialize save_FScale load_FScale;
     default_constructed := FScale.mk FVector_local |}.
#[global] Instance Codec_FScale2D : Codec FScale2D.t :=
  {| serialize := split_serialize save_FScale2D load_FScale2D;
     default_constructed := FScale2D.mk FVector2D_local |}.
#[global] Instance Codec_FShear2D : Codec FShear2D.t :=
  {| serialize := split_serialize save_FShear2D load_FShear2D;
     default_constructed := FShear2D.mk FVector2D_local |}.
#[global] Instance Codec_FSphere : Codec FSphere.t :=
  {| serialize := serialize_FSphere;
     default_constructed := FSphere.mk FVector_local float_local |}.
#[global] Instance Codec_FTwoVectors : Codec FTwoVectors.t :=
  {| serialize := serialize_FTwoVectors;
     default_constructed := FTwoVectors.mk FVector_local FVector_local |}.
#[global] Instance Codec_TInterval `{Codec E} : Codec (TInterval.t E) :=
  {| serialize := serialize_TInterval;
     default_constructed := TInterval.mk default_constructed default_constructed |}.

(** [e] round-trips at registry [m]: there are tokens it travels as. *)
Definition roundtrips `{Codec E} (m : registry) (e : E) : Prop :=
  ∃ toks, travels_as m e toks.

(** The value of the last pair of [l] with key [k]. *)
Fixpoint assoc_last `{EqDecision K} {V} (k : K) (l : list (K * V)) : option V :=
  match l with
  | [] => None
  | p :: l' =>
      match assoc_last k l' with
      | Some v => Some v
      | None => if decide (p.1 = k) then Some p.2 else None
      end
  end.

(** A key-value pair and the tokens [make_map_item] moves it as. *)
Definition pair_travels_as `{Codec K} `{Codec V} (m : registry) (p : K * V)
    (toks : list token) : Prop :=
  ∃ wk wv, travels_as m p.1 wk ∧ travels_as m p.2 wv
           ∧ toks = TokName "key" :: wk ++ TokName "value" :: wv.

(** * Properties *)

(** Unfolds the monad and the [std::map] primitives. *)
Ltac st_unfold :=
  unfold bind, ret, no_return, StdMap.find, StdMap.assign, StdMap.size_,
    StdMap.clear, StdMap.iterate, result, after in *.

(** ** Arithmetic of [int] *)

Section int32_facts.

Lemma wrap_in_range z : in_range z → wrap z = z.
Proof.
  unfold in_range, wrap, INT_MIN, INT_MAX. intros Hz.
  rewrite Z.mod_small; lia.
Qed.

Lemma wrap_range z : in_range (wrap z).
Proof.
  unfold in_range, wrap, INT_MIN, INT_MAX.
  pose proof (Z.mod_pos_bound (z - -2147483648) (2 ^ 32)). lia.
Qed.

Lemma wrap_add_l a b : wrap (wrap a + b) = wrap (a + b).
Proof.
  unfold wrap. f_equal.
  replace ((a - INT_MIN) `mod` 2 ^ 32 + INT_MIN + b - INT_MIN)
    with ((a - INT_MIN) `mod` 2 ^ 32 + b) by lia.
  rewrite Zplus_mod_idemp_l. f_equal. lia.
Qed.

Lemma incr_lt z : INT_MIN ≤ z < INT_MAX → incr z = z + 1.
Proof. intros Hz. apply wrap_in_range. unfold in_range. lia. Qed.

Lemma incr_INT_MAX : incr INT_MAX = INT_MIN.
Proof. reflexivity. Qed.

(** Two integers less than 2^32 apart wrap to different [int]s. *)
Lemma wrap_inj_near a b : wrap a = wrap b → Z.abs (a - b) < 2 ^ 32 → a = b.
Proof.
  unfold wrap. intros Heq Hnear.
  assert (Hm : (a - INT_MIN) `mod` 2 ^ 32 = (b - INT_MIN) `mod` 2 ^ 32) by lia.
  pose proof (Z.div_mod (a - INT_MIN) (2 ^ 32) ltac:(lia)) as Ha.
  pose proof (Z.div_mod (b - INT_MIN) (2 ^ 32) ltac:(lia)) as Hb.
  rewrite Hm in Ha.
  assert ((a - INT_MIN) `div` 2 ^ 32 = (b - INT_MIN) `div` 2 ^ 32) by lia.
  lia.
Qed.

End int32_facts.

(** ** The iteration order of [std::map] *)

Section entries_facts.

#[local] Instance key_le_trans : Transitive StdMap.key_le.
Proof. intros x y z. unfold StdMap.key_le. lia. Qed.

#[local] Instance key_le_total : Total StdMap.key_le.
Proof. intros x y. unfold StdMap.key_le. lia. Qed.

Lemma entries_elem_of (m : registry) k h :
  (k, h) ∈ StdMap.entries m ↔ m !! k = Some h.
Proof.
  unfold StdMap.entries. rewrite merge_sort_Permutation.
  apply elem_of_map_to_list.
Qed.

Lemma entries_sorted (m : registry) :
  StronglySorted StdMap.key_le (StdMap.entries m).
Proof. apply StronglySorted_merge_sort; apply _. Qed.

Lemma entries_length (m : registry) : length (StdMap.entries m) = size m.
Proof.
  unfold StdMap.entries. rewrite merge_sort_Permutation.
  apply length_map_to_list.
Qed.

End entries_facts.

(** ** The reverse lookup loop *)

Section reverse_lookup.

Implicit Types (xs : list (Z * TSubclassOfType)) (h : TSubclassOfType).

Lemma GetIdOfTSubclassOf_loop_no_match xs h :
  (∀ x, x ∈ xs → x.2 ≠ h) → GetIdOfTSubclassOf_loop xs h = INT_MIN.
Proof.
  induction xs as [|x xs IH]; intros Hno; simpl; [done|].
  destruct (decide (x.2 = h)) as [Heq|_].
  - exfalso. apply (Hno x); [left | done].
  - apply IH. intros y Hy. apply Hno. by right.
Qed.

(** When some entry matches, the loop returns at the first one. *)
Lemma GetIdOfTSubclassOf_loop_first xs h x0 :
  x0 ∈ xs → x0.2 = h →
  ∃ pre x post, xs = pre ++ x :: post ∧ x.2 = h
                ∧ (∀ y, y ∈ pre → y.2 ≠ h)
                ∧ GetIdOfTSubclassOf_loop xs h = x.1.
Proof.
  induction xs as [|x xs IH]; intros Hin Hh; [by apply elem_of_nil in Hin|].
  simpl. destruct (decide (x.2 = h)) as [Heq|Hne].
  - exists [], x, xs. split_and!; [done|done| |done].
    intros y Hy. by apply elem_of_nil in Hy.
  - apply elem_of_cons in Hin as [->|Hin]; [done|].
    destruct (IH Hin Hh) as (pre & x1 & post & -> & Hx1 & Hpre & Hret).
    exists (x :: pre), x1, post. split_and!; [done|done| |done].
    intros y [->|Hy]%elem_of_cons; [done | by apply Hpre].
Qed.

(** A value the loop returns other than [INT_MIN] is the key of an entry
    holding [h]. *)
Lemma GetIdOfTSubclassOf_loop_found xs h :
  GetIdOfTSubclassOf_loop xs h ≠ INT_MIN →
  (GetIdOfTSubclassOf_loop xs h, h) ∈ xs.
Proof.
  induction xs as [|[k v] xs IH]; simpl; [done|].
  destruct (decide (v = h)) as [->|Hne]; intros Hid.
  - left.
  - right. by apply IH.
Qed.

End reverse_lookup.

(** ** The allocation scan *)

Section allocation_scan.

Implicit Types (m : registry) (fuel : nat).

Lemma nth_probe_wrap i s : in_range s → nth_probe i s = wrap (s + Z.of_nat i).
Proof.
  revert s. induction i as [|i IH]; intros s Hs; simpl.
  - rewrite Z.add_0_r. symmetry. by apply wrap_in_range.
  - rewrite IH by apply wrap_range.
    unfold incr. rewrite wrap_add_l. f_equal. lia.
Qed.

Lemma nth_probe_no_wrap i s :
  INT_MIN ≤ s → s + Z.of_nat i ≤ INT_MAX → nth_probe i s = s + Z.of_nat i.
Proof.
  intros Hs Hi. rewrite nth_probe_wrap by (unfold in_range; lia).
  apply wrap_in_range. unfold in_range. lia.
Qed.

(** The loop leaves the map alone, and returns the first absent probe. *)
Lemma GetNextID_loop_inv fuel s m r m' :
  GetNextID_loop fuel s m = Some (r, m') →
  m' = m ∧ ∃ p, (p < fuel)%nat ∧ r = nth_probe p s ∧ m !! r = None
                ∧ ∀ i, (i < p)%nat → is_Some (m !! nth_probe i s).
Proof.
  revert s. induction fuel as [|fuel IH]; intros s; simpl; st_unfold; [done|].
  destruct (m !! s) as [v|] eqn:Hs.
  - intros Hrun. destruct (IH _ Hrun) as (-> & p & Hp & -> & Hfree & Hbusy).
    split; [done|]. exists (S p). split_and!; [lia|done|done|].
    intros [|i] Hi; simpl; [by rewrite Hs | apply Hbusy; lia].
  - intros [= <- <-]. split; [done|]. exists O.
    split_and!; [lia|done|done|]. intros i Hi. lia.
Qed.

Lemma GetNextID_loop_run fuel s m p :
  (p < fuel)%nat → m !! nth_probe p s = None →
  (∀ i, (i < p)%nat → is_Some (m !! nth_probe i s)) →
  GetNextID_loop fuel s m = Some (nth_probe p s, m).
Proof.
  revert s p. induction fuel as [|fuel IH]; intros s p Hp Hfree Hbusy; [lia|].
  simpl; st_unfold. destruct p as [|p]; simpl in *.
  - by rewrite Hfree.
  - destruct (Hbusy O ltac:(lia)) as [v Hv]. simpl in Hv. rewrite Hv.
    apply IH; [lia|done|]. intros i Hi. apply (Hbusy (S i)). lia.
Qed.

(** Pairwise different keys that are all present are no more than the
    entries. *)
Lemma present_keys_le_size (f : nat → Z) p m :
  (∀ i j, (i < p)%nat → (j < p)%nat → f i = f j → i = j) →
  (∀ i, (i < p)%nat → is_Some (m !! f i)) →
  (p ≤ size m)%nat.
Proof.
  revert m. induction p as [|p IH]; intros m Hinj Hpres; [lia|].
  destruct (Hpres p ltac:(lia)) as [v Hv].
  assert (Hdel : (p ≤ size (delete (f p) m))%nat).
  { apply IH.
    - intros i j Hi Hj. apply Hinj; lia.
    - intros i Hi. rewrite lookup_delete_ne; [apply Hpres; lia|].
      intros Heq. apply Hinj in Heq; lia. }
  rewrite map_size_delete_Some in Hdel by eauto.
  assert (size m ≠ 0%nat); [|lia].
  intros Hz%map_size_empty_inv. by rewrite Hz in Hv.
Qed.

(** A loop that exits does so within [size m + 1] probes: more fuel than
    that changes nothing. *)
Lemma GetNextID_loop_fuel_adequate fuel s m r m' :
  in_range s →
  GetNextID_loop fuel s m = Some (r, m') →
  GetNextID_loop (S (size m)) s m = Some (r, m').
Proof.
  intros Hs (-> & p & _ & -> & Hfree & Hbusy)%GetNextID_loop_inv.
  apply GetNextID_loop_run; [|done|done].
  assert (Hp : Z.of_nat p < 2 ^ 32).
  { destruct (decide (Z.of_nat p < 2 ^ 32)) as [|Hge]; [done|exfalso].
    remember (Z.to_nat (Z.of_nat p - 2 ^ 32)) as q eqn:Hq.
    destruct (Hbusy q ltac:(lia)) as [v Hv].
    rewrite nth_probe_wrap in Hv, Hfree by done.
    assert (Hw : wrap (s + Z.of_nat p) = wrap (s + Z.of_nat q)).
    { unfold wrap.
      replace (s + Z.of_nat p - INT_MIN)
        with (s + Z.of_nat q - INT_MIN + 1 * 2 ^ 32) by lia.
      by rewrite Z_mod_plus_full. }
    rewrite Hw in Hfree. rewrite Hfree in Hv. discriminate Hv. }
  enough (p ≤ size m)%nat by lia.
  apply (present_keys_le_size (λ i, nth_probe i s)); [|done].
  intros i j Hi Hj. rewrite !nth_probe_wrap by done.
  intros Heq%wrap_inj_near; lia.
Qed.

Lemma GetNextID_loop_fuel_mono fuel fuel' s m r m' :
  (fuel ≤ fuel')%nat →
  GetNextID_loop fuel s m = Some (r, m') →
  GetNextID_loop fuel' s m = Some (r, m').
Proof.
  intros Hle (-> & p & Hp & -> & Hfree & Hbusy)%GetNextID_loop_inv.
  apply GetNextID_loop_run; [lia|done|done].
Qed.

(** Below a free identifier there is a least free one. *)
Lemma least_free m s f :
  s ≤ f → m !! f = None →
  ∃ r, s ≤ r ≤ f ∧ m !! r = None ∧ ∀ j, s ≤ j < r → is_Some (m !! j).
Proof.
  intros Hsf Hf. remember (Z.to_nat (f - s)) as d eqn:Hd.
  revert s Hsf Hd. induction d as [|d IH]; intros s Hsf Hd.
  - assert (s = f) as -> by lia. exists f. split_and!; [lia|lia|done|].
    intros j Hj. lia.
  - destruct (m !! s) as [v|] eqn:Hs.
    + destruct (IH (s + 1)) as (r & Hr & Hfree & Hbusy); [lia|lia|].
      exists r. split_and!; [lia|lia|done|].
      intros j Hj. destruct (decide (j = s)) as [->|]; [eauto|].
      apply Hbusy. lia.
    + exists s. split_and!; [lia|lia|done|]. intros j Hj. lia.
Qed.

(** [GetNextID] with a free identifier in [INT_MIN + 1 .. INT_MAX]: the
    scan stops at the least such identifier. *)
Lemma GetNextID_first_fit m f :
  INT_MIN + 1 ≤ f ≤ INT_MAX → m !! f = None →
  ∃ id, GetNextID m = Some (id, m)
        ∧ INT_MIN + 1 ≤ id ≤ f ∧ m !! id = None
        ∧ ∀ j, INT_MIN + 1 ≤ j < id → is_Some (m !! j).
Proof.
  intros Hf Hfree.
  destruct (least_free m (INT_MIN + 1) f) as (r & Hr & Hrfree & Hbusy);
    [lia|done|].
  exists r. split_and!; [|lia|lia|done|done].
  unfold GetNextID; st_unfold.
  apply (GetNextID_loop_fuel_adequate (S (Z.to_nat (r - (INT_MIN + 1))))).
  { unfold in_range, INT_MIN, INT_MAX. lia. }
  assert (Hnth : ∀ i, (i ≤ Z.to_nat (r - (INT_MIN + 1)))%nat →
                      nth_probe i (INT_MIN + 1) = INT_MIN + 1 + Z.of_nat i).
  { intros i Hi. apply nth_probe_no_wrap; unfold INT_MIN, INT_MAX in *; lia. }
  replace r with (nth_probe (Z.to_nat (r - (INT_MIN + 1))) (INT_MIN + 1)) at 2
    by (rewrite Hnth; lia).
  apply GetNextID_loop_run; [lia|rewrite Hnth by lia|].
  - by replace (INT_MIN + 1 + Z.of_nat (Z.to_nat (r - (INT_MIN + 1)))) with r by lia.
  - intros i Hi. rewrite Hnth by lia. apply Hbusy. lia.
Qed.

End allocation_scan.

(** ** The registry's member functions *)

Section registry_claims.

Implicit Types (m : registry) (h : TSubclassOfType) (id : Z).

Lemma GetIdOfTSubclassOf_run h m :
  GetIdOfTSubclassOf h m
  = Some (GetIdOfTSubclassOf_loop (StdMap.entries m) h, m).
Proof. reflexivity. Qed.

Lemma GetTSubclassOfFromId_run id m :
  GetTSubclassOfFromId id m = Some (default TSubclassOfType_default (m !! id), m).
Proof.
  unfold GetTSubclassOfFromId; st_unfold. by destruct (m !! id).
Qed.

Lemma GetIdOfTSubclassOf_loop_unregistered m h :
  ¬ registered m h → GetIdOfTSubclassOf_loop (StdMap.entries m) h = INT_MIN.
Proof.
  intros Hno. apply GetIdOfTSubclassOf_loop_no_match.
  intros [k v] Hin%entries_elem_of Heq. simpl in Heq. subst v.
  apply Hno. by exists k.
Qed.

Lemma GetIdOfTSubclassOf_loop_registered m h :
  registered m h →
  m !! GetIdOfTSubclassOf_loop (StdMap.entries m) h = Some h.
Proof.
  intros [k Hk]. apply entries_elem_of in Hk.
  destruct (GetIdOfTSubclassOf_loop_first _ h _ Hk eq_refl)
    as (pre & [id v] & post & Hsplit & Hv & _ & ->).
  simpl in *. subst v. apply entries_elem_of. rewrite Hsplit. set_solver.
Qed.

(** C5: whenever the identifier [GetIdOfTSubclassOf] returns for [h] is not
    [INT_MIN], looking that identifier up with [GetTSubclassOfFromId]
    returns [h] again (and the registry is as before). *)
Theorem GetTSubclassOfFromId_GetIdOfTSubclassOf m h :
  result (GetIdOfTSubclassOf h) m ≠ Some INT_MIN →
  (id <- GetIdOfTSubclassOf h ;; GetTSubclassOfFromId id) m = Some (h, m).
Proof.
  unfold result, bind. rewrite GetIdOfTSubclassOf_run. simpl. intros Hid.
  rewrite GetTSubclassOfFromId_run.
  assert (Hin : GetIdOfTSubclassOf_loop (StdMap.entries m) h ≠ INT_MIN)
    by congruence.
  apply GetIdOfTSubclassOf_loop_found, entries_elem_of in Hin.
  by rewrite Hin.
Qed.

(** C6: when no entry holds [h], [GetIdOfTSubclassOf h] returns [INT_MIN],
    the minimum signed 32-bit value. *)
Theorem GetIdOfTSubclassOf_unregistered m h :
  ¬ registered m h →
  GetIdOfTSubclassOf h m = Some (INT_MIN, m) ∧ INT_MIN = - 2 ^ 31.
Proof.
  intros Hno. split; [|done]. rewrite GetIdOfTSubclassOf_run.
  by rewrite GetIdOfTSubclassOf_loop_unregistered.
Qed.

(** C7: for an identifier that is not a key, [GetTSubclassOfFromId] returns
    normally, with the default-constructed handle, and leaves the registry
    as it was. *)
Theorem GetTSubclassOfFromId_absent m id :
  m !! id = None →
  GetTSubclassOfFromId id m = Some (TSubclassOfType_default, m).
Proof. intros Hid. by rewrite GetTSubclassOfFromId_run, Hid. Qed.

(** C8: when [h] is registered (under one identifier or several),
    [GetIdOfTSubclassOf h] returns the key of the first entry in iteration
    order that holds [h], and this is the numerically smallest identifier
    under which [h] is registered. *)
Theorem GetIdOfTSubclassOf_first_match m h :
  registered m h →
  ∃ id pre post,
    GetIdOfTSubclassOf h m = Some (id, m)
    ∧ StdMap.entries m = pre ++ (id, h) :: post
    ∧ (∀ y, y ∈ pre → y.2 ≠ h)
    ∧ m !! id = Some h
    ∧ ∀ id', m !! id' = Some h → id ≤ id'.
Proof.
  intros [k Hk]. apply entries_elem_of in Hk.
  destruct (GetIdOfTSubclassOf_loop_first _ h _ Hk eq_refl)
    as (pre & [id v] & post & Hsplit & Hv & Hpre & Hret).
  simpl in Hv, Hret. subst v.
  exists id, pre, post. rewrite GetIdOfTSubclassOf_run, Hret.
  split_and!; [done|done|done| |].
  - apply entries_elem_of. rewrite Hsplit. set_solver.
  - intros id' Hid'%entries_elem_of.
    pose proof (entries_sorted m) as Hsorted. rewrite Hsplit in Hsorted, Hid'.
    apply elem_of_app in Hid' as [Hin|Hin].
    + by destruct (Hpre _ Hin).
    + apply StronglySorted_app_1_r, StronglySorted_cons in Hsorted
        as [Hall Hsorted].
      apply elem_of_cons in Hin as [[= ->]|Hin]; [lia|].
      rewrite Forall_forall in Hall. apply (Hall _ Hin).
Qed.

(** C10: when some identifier from [INT_MIN + 1] to [INT_MAX] is free, the
    scan of [GetNextID] exits and returns an identifier that is not a key
    of the registry; it is the least free one from [INT_MIN + 1] upwards,
    and the registry is untouched. *)
Theorem GetNextID_terminates m f :
  INT_MIN + 1 ≤ f ≤ INT_MAX → m !! f = None →
  ∃ id, GetNextID m = Some (id, m)
        ∧ m !! id = None
        ∧ INT_MIN + 1 ≤ id ≤ INT_MAX
        ∧ first_fit m id.
Proof.
  intros Hf Hfree.
  destruct (GetNextID_first_fit m f Hf Hfree) as (id & Hrun & Hid & Hnone & Hbusy).
  exists id. unfold first_fit. split_and!; [done|done|lia|lia|lia|done|done].
Qed.

End registry_claims.

(** ** Automatic registration and the reserved identifier *)

Section registration_claims.

Implicit Types (m : registry) (h : TSubclassOfType) (id : Z).

Lemma GetNextID_loop_stuck fuel s m :
  GetNextID_loop fuel s m = None →
  ∀ i, (i < fuel)%nat → is_Some (m !! nth_probe i s).
Proof.
  revert s. induction fuel as [|fuel IH]; intros s Hrun i Hi; [lia|].
  simpl in Hrun; st_unfold. destruct (m !! s) as [v|] eqn:Hs; [|done].
  destruct i as [|i]; simpl; [by rewrite Hs|]. apply IH; [done|lia].
Qed.

(** A registry with fewer than 2^32 - 1 entries has a free identifier in
    [INT_MIN + 1 .. INT_MAX]. *)
Lemma registry_room m :
  Z.of_nat (size m) < INT_MAX - INT_MIN →
  ∃ f, INT_MIN + 1 ≤ f ≤ INT_MAX ∧ m !! f = None.
Proof.
  intros Hsize.
  assert (Hnth : ∀ i, (i ≤ size m)%nat →
                      nth_probe i (INT_MIN + 1) = INT_MIN + 1 + Z.of_nat i).
  { intros i Hi. apply nth_probe_no_wrap; unfold INT_MIN, INT_MAX in *; lia. }
  destruct (GetNextID_loop (S (size m)) (INT_MIN + 1) m) as [[r m']|] eqn:Hrun.
  - apply GetNextID_loop_inv in Hrun as (_ & p & Hp & -> & Hfree & _).
    exists (nth_probe p (INT_MIN + 1)). split; [|done].
    rewrite Hnth by lia. unfold INT_MIN, INT_MAX in *. lia.
  - exfalso. pose proof (GetNextID_loop_stuck _ _ _ Hrun) as Hbusy.
    enough (S (size m) ≤ size m)%nat by lia.
    apply (present_keys_le_size (λ i, nth_probe i (INT_MIN + 1))); [|done].
    intros i j Hi Hj. rewrite !Hnth by lia. lia.
Qed.

Lemma RegisterTSubclassOf_run m h id :
  GetNextID m = Some (id, m) →
  RegisterTSubclassOf h m = Some (tt, <[id := h]> m).
Proof. intros Hid. unfold RegisterTSubclassOf; st_unfold. by rewrite Hid. Qed.

(** [RegisterTSubclassOf_each] is [RegisterTSubclassOf] called once per
    handle. *)
Lemma RegisterTSubclassOf_each_calls hs m :
  after (RegisterTSubclassOf_each hs) m = after (RegisterTSubclassOf_calls hs) m.
Proof.
  revert m. induction hs as [|h hs IH]; intros m; [done|].
  unfold after in *. simpl.
  unfold RegisterTSubclassOf. st_unfold.
  destruct (GetNextID m) as [[id m1]|]; [|done].
  rewrite <- (IH (<[id := h]> m1)).
  by destruct (RegisterTSubclassOf_each hs _) as [[ids m2]|].
Qed.

(** C2 (amended): the registry staying free of an entry under [INT_MIN] is
    preserved by every member function that returns, except that
    [RegisterTSubclassOf(id, subclass)] must be given an identifier other
    than [INT_MIN], and the automatic [RegisterTSubclassOf(subclass)] needs a
    free identifier in [INT_MIN + 1 .. INT_MAX]; under these conditions the
    call returns. *)
Theorem sentinel_free_preserved (c : call) m :
  sentinel_free m → keeps_sentinel_free m c →
  ∃ m', run_call c m = Some m' ∧ sentinel_free m'.
Proof.
  unfold sentinel_free. intros Hm Hc.
  destruct c as [id h|h|h|id| |]; simpl in *.
  - exists (<[id := h]> m). split; [done|]. by rewrite lookup_insert_ne.
  - destruct Hc as (f & Hf & Hfree).
    destruct (GetNextID_first_fit m f Hf Hfree) as (id & Hrun & Hid & _).
    exists (<[id := h]> m). unfold after.
    rewrite (RegisterTSubclassOf_run _ _ _ Hrun). split; [done|].
    rewrite lookup_insert_ne; [done|]. unfold INT_MIN in *. lia.
  - exists m. unfold after. by rewrite GetIdOfTSubclassOf_run.
  - exists m. unfold after. by rewrite GetTSubclassOfFromId_run.
  - by exists m.
  - by exists ∅.
Qed.

(** After a registration under [id], all but at most one of the free
    identifiers are still free. *)
Lemma free_identifiers_insert m fs id h :
  free_identifiers m fs →
  ∃ fs', free_identifiers (<[id := h]> m) fs'
         ∧ (length fs ≤ S (length fs'))%nat.
Proof.
  intros [Hnodup Hfree]. rewrite Forall_forall in Hfree.
  destruct (decide (id ∈ fs)) as [Hin|Hnin].
  - apply elem_of_Permutation in Hin as [fs' Hperm].
    rewrite Hperm in Hnodup. apply NoDup_cons in Hnodup as [Hid Hnodup].
    exists fs'. split; [split; [done|] | by rewrite Hperm].
    apply Forall_forall. intros f Hf.
    destruct (Hfree f) as [Hr Hnone]; [rewrite Hperm; by right|].
    split; [done|]. rewrite lookup_insert_ne; [done|]. by intros ->.
  - exists fs. split; [split; [done|] | lia].
    apply Forall_forall. intros f Hf. destruct (Hfree f Hf) as [Hr Hnone].
    split; [done|]. rewrite lookup_insert_ne; [done|]. by intros ->.
Qed.

(** C4 (amended): on a registry in which at least [n] identifiers from
    [INT_MIN + 1] to [INT_MAX] are free, [n] automatic registrations all
    return and store [n] entries under [n] pairwise different identifiers,
    each above [INT_MIN], none a key before, each the first fit of an
    ascending scan from [INT_MIN + 1] over the identifiers present at that
    time; the entries present before are kept. *)
Theorem RegisterTSubclassOf_each_first_fit m (hs : list TSubclassOfType) fs :
  free_identifiers m fs → (length hs ≤ length fs)%nat →
  auto_registration_ok m hs.
Proof.
  revert m fs. induction hs as [|h hs IH]; intros m fs Hfs Hroom.
  { exists [], m. split_and!; try done. constructor. }
  destruct fs as [|f fs0]; [simpl in Hroom; lia|].
  pose proof Hfs as [_ [[Hf Hfree] _]%Forall_cons].
  destruct (GetNextID_first_fit m f Hf Hfree) as (id & Hrun & Hid & Hnone & Hbusy).
  assert (Hsize : size (<[id := h]> m) = S (size m))
    by by apply map_size_insert_None.
  destruct (free_identifiers_insert m (f :: fs0) id h Hfs) as (fs' & Hfs' & Hlen').
  destruct (IH (<[id := h]> m) fs' Hfs') as
    (ids & m' & Hrest & Hlen & Hnodup & Hall & Hsz & Hstored & Hsub & Htrace);
    [simpl in *; lia|].
  rewrite Forall_forall in Hall.
  exists (id :: ids), m'. split_and!.
  - simpl. unfold bind at 1. rewrite Hrun. unfold bind, StdMap.assign, ret.
    by rewrite Hrest.
  - simpl. by rewrite Hlen.
  - constructor; [|done]. intros Hin. destruct (Hall _ Hin) as [_ Habs].
    by rewrite lookup_insert_eq in Habs.
  - constructor.
    + split; [unfold INT_MIN in *; lia | done].
    + apply Forall_forall. intros id' Hin. destruct (Hall _ Hin) as [Hr Habs].
      split; [done|]. by apply lookup_insert_None in Habs as [? _].
  - rewrite Hsz, Hsize. simpl. lia.
  - intros [|i] id' h' Hi Hh; simpl in *.
    + injection Hi as <-. injection Hh as <-.
      rewrite map_subseteq_spec in Hsub. apply Hsub. apply lookup_insert_eq.
    + by apply (Hstored i).
  - etrans; [|exact Hsub]. by apply insert_subseteq.
  - simpl. split; [|done]. split_and!; [lia|done|done].
Qed.

End registration_claims.

(** ** The registry at its limits *)

Section limits.

Lemma saturated_registry_keys :
  ((λ k, (k, TSubclassOf 1)) <$> seqZ (INT_MIN + 1) (INT_MAX - INT_MIN)).*1
  = seqZ (INT_MIN + 1) (INT_MAX - INT_MIN).
Proof.
  rewrite <- list_fmap_compose.
  rewrite <- (list_fmap_id (seqZ _ _)) at 2.
  apply list_fmap_ext. intros; reflexivity.
Qed.

Lemma saturated_registry_lookup k :
  INT_MIN < k ≤ INT_MAX → saturated_registry !! k = Some (TSubclassOf 1).
Proof.
  intros Hk. unfold saturated_registry.
  apply elem_of_list_to_map_1.
  - rewrite saturated_registry_keys. apply NoDup_seqZ.
  - apply list_elem_of_fmap. exists k. split; [reflexivity|].
    apply elem_of_seqZ. lia.
Qed.

Lemma saturated_registry_sentinel_free : sentinel_free saturated_registry.
Proof.
  unfold sentinel_free, saturated_registry.
  apply not_elem_of_list_to_map_1.
  rewrite saturated_registry_keys.
  intros Hin%elem_of_seqZ. lia.
Qed.

(** With every identifier above [INT_MIN] taken, the scan runs through
    [INT_MAX] and, under the wrap-around written out in [incr], comes out
    with [INT_MIN] itself.  In C++ the increment at [INT_MAX] is undefined,
    so this describes the usual targets, not the language. *)
Lemma GetNextID_saturated :
  GetNextID saturated_registry = Some (INT_MIN, saturated_registry).
Proof.
  unfold GetNextID, bind, StdMap.size_.
  pose (p := Z.to_nat (INT_MAX - INT_MIN)).
  assert (Hp : Z.of_nat p = INT_MAX - INT_MIN)
    by (unfold p, INT_MAX, INT_MIN; lia).
  clearbody p.
  assert (Hnth : ∀ i, (i < p)%nat →
                      nth_probe i (INT_MIN + 1) = INT_MIN + 1 + Z.of_nat i).
  { intros i Hi. apply nth_probe_no_wrap; unfold INT_MAX, INT_MIN in *; lia. }
  assert (Hlast : nth_probe p (INT_MIN + 1) = INT_MIN).
  { rewrite nth_probe_wrap by (unfold in_range, INT_MIN, INT_MAX; lia).
    rewrite Hp. reflexivity. }
  apply (GetNextID_loop_fuel_adequate (S p)).
  { unfold in_range, INT_MIN, INT_MAX. lia. }
  rewrite <- Hlast at 2. apply GetNextID_loop_run.
  - lia.
  - rewrite Hlast. apply saturated_registry_sentinel_free.
  - intros i Hi. rewrite Hnth by exact Hi.
    rewrite saturated_registry_lookup by lia. eexists. reflexivity.
Qed.

(** C2, counterexample: [RegisterTSubclassOf(id, subclass)] with
    [id = INT_MIN] on the empty registry returns and leaves an entry under
    [INT_MIN]. *)
Lemma RegisterTSubclassOf_id_stores_sentinel :
  ¬ (sentinel_free (∅ : registry) →
     ∀ m', run_call (CallRegisterWithId INT_MIN (TSubclassOf 1)) ∅ = Some m' →
           sentinel_free m').
Proof.
  intros Hclaim.
  specialize (Hclaim eq_refl (<[INT_MIN := TSubclassOf 1]> ∅) eq_refl).
  vm_compute in Hclaim. discriminate Hclaim.
Qed.

(** C4, counterexample: on the registry that has an entry under every
    identifier from [INT_MIN + 1] to [INT_MAX], one automatic registration
    cannot get an identifier above [INT_MIN] that was not a key before. *)
Lemma RegisterTSubclassOf_saturated :
  ¬ auto_registration_ok saturated_registry [TSubclassOf 2].
Proof.
  intros (ids & m' & _ & Hlen & _ & Hall & _).
  destruct ids as [|id ids]; [discriminate Hlen|].
  apply Forall_cons in Hall as [[Hr Hnone] _].
  rewrite saturated_registry_lookup in Hnone by exact Hr.
  discriminate Hnone.
Qed.

(** What that registration does: it stores the handle under [INT_MIN]. *)
Lemma saturated_RegisterTSubclassOf_run h :
  RegisterTSubclassOf h saturated_registry
  = Some (tt, <[INT_MIN := h]> saturated_registry).
Proof. apply RegisterTSubclassOf_run, GetNextID_saturated. Qed.

End limits.

(** ** The registry statements on [example_registry] *)

Section registry_witnesses.

Lemma GetTSubclassOfFromId_GetIdOfTSubclassOf_witness :
  result (GetIdOfTSubclassOf (TSubclassOf 9)) example_registry ≠ Some INT_MIN
  ∧ (id <- GetIdOfTSubclassOf (TSubclassOf 9) ;; GetTSubclassOfFromId id)
      example_registry
    = Some (TSubclassOf 9, example_registry).
Proof.
  assert (H : result (GetIdOfTSubclassOf (TSubclassOf 9)) example_registry
              ≠ Some INT_MIN) by (vm_compute; discriminate).
  split; [exact H|].
  exact (GetTSubclassOfFromId_GetIdOfTSubclassOf example_registry (TSubclassOf 9) H).
Defined.

Lemma GetIdOfTSubclassOf_unregistered_witness :
  ¬ registered example_registry (TSubclassOf 42)
  ∧ GetIdOfTSubclassOf (TSubclassOf 42) example_registry
    = Some (INT_MIN, example_registry).
Proof.
  assert (H : ¬ registered example_registry (TSubclassOf 42))
    by (apply (bool_decide_eq_false_1 _); vm_compute; reflexivity).
  split; [exact H|].
  exact (proj1 (GetIdOfTSubclassOf_unregistered example_registry (TSubclassOf 42) H)).
Defined.

Lemma GetTSubclassOfFromId_absent_witness :
  example_registry !! (-999999) = None
  ∧ GetTSubclassOfFromId (-999999) example_registry
    = Some (TSubclassOfType_default, example_registry).
Proof.
  assert (H : example_registry !! (-999999) = None) by (vm_compute; reflexivity).
  split; [exact H|].
  exact (GetTSubclassOfFromId_absent example_registry (-999999) H).
Defined.

Lemma GetIdOfTSubclassOf_first_match_witness :
  registered example_registry (TSubclassOf 7)
  ∧ ∃ id pre post,
      GetIdOfTSubclassOf (TSubclassOf 7) example_registry
      = Some (id, example_registry)
      ∧ StdMap.entries example_registry = pre ++ (id, TSubclassOf 7) :: post
      ∧ (∀ y, y ∈ pre → y.2 ≠ TSubclassOf 7)
      ∧ example_registry !! id = Some (TSubclassOf 7)
      ∧ ∀ id', example_registry !! id' = Some (TSubclassOf 7) → id ≤ id'.
Proof.
  assert (H : registered example_registry (TSubclassOf 7))
    by (exists 100; vm_compute; reflexivity).
  split; [exact H|].
  exact (GetIdOfTSubclassOf_first_match example_registry (TSubclassOf 7) H).
Defined.

Lemma GetNextID_terminates_witness :
  INT_MIN + 1 ≤ 0 ≤ INT_MAX ∧ example_registry !! 0 = None
  ∧ ∃ id, GetNextID example_registry = Some (id, example_registry)
          ∧ example_registry !! id = None
          ∧ INT_MIN + 1 ≤ id ≤ INT_MAX
          ∧ first_fit example_registry id.
Proof.
  assert (Hr : INT_MIN + 1 ≤ 0 ≤ INT_MAX) by (unfold INT_MIN, INT_MAX; lia).
  assert (Hf : example_registry !! 0 = None) by (vm_compute; reflexivity).
  split; [exact Hr|]. split; [exact Hf|].
  exact (GetNextID_terminates example_registry 0 Hr Hf).
Defined.

Lemma sentinel_free_preserved_witness :
  sentinel_free example_registry
  ∧ keeps_sentinel_free example_registry (CallRegister (TSubclassOf 3))
  ∧ ∃ m', run_call (CallRegister (TSubclassOf 3)) example_registry = Some m'
          ∧ sentinel_free m'.
Proof.
  assert (Hs : sentinel_free example_registry) by (vm_compute; reflexivity).
  assert (Hk : keeps_sentinel_free example_registry (CallRegister (TSubclassOf 3))).
  { exists 0. split; [unfold INT_MIN, INT_MAX; lia | vm_compute; reflexivity]. }
  split; [exact Hs|]. split; [exact Hk|].
  exact (sentinel_free_preserved (CallRegister (TSubclassOf 3)) example_registry Hs Hk).
Defined.

Lemma RegisterTSubclassOf_each_first_fit_witness :
  free_identifiers example_registry [0; 1]
  ∧ (length [TSubclassOf 1; TSubclassOf 2] ≤ length [0; 1])%nat
  ∧ auto_registration_ok example_registry [TSubclassOf 1; TSubclassOf 2].
Proof.
  assert (Hfs : free_identifiers example_registry [0; 1]).
  { split; [apply (bool_decide_unpack _); vm_compute; exact I|].
    repeat constructor; vm_compute; (discriminate || reflexivity). }
  assert (Hlen : (length [TSubclassOf 1; TSubclassOf 2] ≤ length [0; 1])%nat)
    by (simpl; lia).
  split; [exact Hfs|]. split; [exact Hlen|].
  exact (RegisterTSubclassOf_each_first_fit example_registry _ _ Hfs Hlen).
Defined.

(** The identifiers the two registrations get on [example_registry]. *)
Example RegisterTSubclassOf_each_example :
  result (RegisterTSubclassOf_each [TSubclassOf 1; TSubclassOf 2]) example_registry
  = Some [INT_MIN + 3; INT_MIN + 4].
Proof. vm_compute. reflexivity. Qed.

Example GetIdOfTSubclassOf_example :
  result (GetIdOfTSubclassOf (TSubclassOf 7)) example_registry = Some (INT_MIN + 1).
Proof. vm_compute. reflexivity. Qed.

End registry_witnesses.

(** ** Codecs of the value types *)

Section value_codecs.

Implicit Types (m : registry) (out rest : list token).

Lemma ar_float_save x out m :
  ar_float x (World (Saving out) m)
  = Some (x, World (Saving (out ++ [TokFloat x])) m).
Proof. reflexivity. Qed.

Lemma ar_float_load d x rest m :
  ar_float d (World (Loading (TokFloat x :: rest)) m)
  = Some (x, World (Loading rest) m).
Proof. reflexivity. Qed.

Lemma ar_int_save x out m :
  ar_int x (World (Saving out) m) = Some (x, World (Saving (out ++ [TokInt x])) m).
Proof. reflexivity. Qed.

Lemma ar_int_load d x rest m :
  ar_int d (World (Loading (TokInt x :: rest)) m) = Some (x, World (Loading rest) m).
Proof. reflexivity. Qed.

Lemma make_nvp_save {A} name (c : St world A) out m :
  make_nvp name c (World (Saving out) m)
  = c (World (Saving (out ++ [TokName name])) m).
Proof. reflexivity. Qed.

Lemma make_nvp_load {A} name (c : St world A) rest m :
  make_nvp name c (World (Loading (TokName name :: rest)) m)
  = c (World (Loading rest) m).
Proof.
  unfold make_nvp, bind, is_loading, read. simpl.
  by destruct (decide (name = name)).
Qed.

Lemma serialize_FVector_save v out m :
  serialize_FVector v (World (Saving out) m)
  = Some (v, World (Saving (out ++ FVector_tokens v)) m).
Proof.
  destruct v as [x y z]. unfold serialize_FVector, bind, ret, FVector_tokens.
  simpl. by rewrite <- !app_assoc.
Qed.

Lemma serialize_FVector_load d v rest m :
  serialize_FVector d (World (Loading (FVector_tokens v ++ rest)) m)
  = Some (v, World (Loading rest) m).
Proof. by destruct v. Qed.

Lemma FVector_travels m v : travels_as m v (FVector_tokens v).
Proof.
  split; [intros out; apply serialize_FVector_save
         | intros d rest; apply serialize_FVector_load].
Qed.

Lemma int_travels m (x : Z) : travels_as m x [TokInt x].
Proof. by split. Qed.

(** Saving an [FBox]: the pair named ["IsValid"] carries [Max], and the
    member [IsValid] is not written. *)
Lemma serialize_FBox_save b out m :
  serialize_FBox b (World (Saving out) m)
  = Some (b, World (Saving (out ++ FBox_tokens b)) m).
Proof.
  destruct b as [bmin bmax valid]. unfold serialize_FBox, bind, FBox_tokens.
  cbn [FBox.Min FBox.Max FBox.IsValid].
  rewrite make_nvp_save, serialize_FVector_save.
  rewrite make_nvp_save, serialize_FVector_save.
  rewrite make_nvp_save, serialize_FVector_save.
  unfold ret. do 3 f_equal. rewrite <- !app_assoc. reflexivity.
Qed.

(** Loading an [FBox]: [Min] and [Max] are read, [IsValid] stays what the
    destination had. *)
Lemma serialize_FBox_load d b rest m :
  serialize_FBox d (World (Loading (FBox_tokens b ++ rest)) m)
  = Some (FBox.mk (FBox.Min b) (FBox.Max b) (FBox.IsValid d),
          World (Loading rest) m).
Proof.
  destruct b as [bmin bmax valid]. unfold serialize_FBox, bind, FBox_tokens.
  cbn [FBox.Min FBox.Max FBox.IsValid].
  repeat (rewrite <- app_comm_cons || rewrite <- app_assoc).
  do 3 rewrite make_nvp_load, serialize_FVector_load.
  reflexivity.
Qed.

(** What is written does not depend on [IsValid]. *)
Lemma FBox_tokens_IsValid bmin bmax v1 v2 :
  FBox_tokens (FBox.mk bmin bmax v1) = FBox_tokens (FBox.mk bmin bmax v2).
Proof. reflexivity. Qed.

(** C1: [serialize(A&, FBox&)] does not round-trip an [FBox].  Saving writes
    [Max] under the name ["IsValid"] and again under ["Max"], and never the
    member [IsValid]; loading reads [Min] and [Max] and leaves [IsValid] as
    the destination had it.  So the valid zero-extent box, saved and loaded
    into a box made by [FBox(ForceInit)], comes back with [IsValid = 0]
    where the saved box had [1]. *)
Theorem serialize_FBox_drops_IsValid :
  (∀ b out m, serialize_FBox b (World (Saving out) m)
              = Some (b, World (Saving (out ++ FBox_tokens b)) m))
  ∧ (∀ d b rest m,
        serialize_FBox d (World (Loading (FBox_tokens b ++ rest)) m)
        = Some (FBox.mk (FBox.Min b) (FBox.Max b) (FBox.IsValid d),
                World (Loading rest) m))
  ∧ saved (serialize_FBox FBox_zero_extent) ∅
    = Some [TokName "IsValid"; TokFloat (FloatBits 0); TokFloat (FloatBits 0);
            TokFloat (FloatBits 0);
            TokName "Min"; TokFloat (FloatBits 0); TokFloat (FloatBits 0);
            TokFloat (FloatBits 0);
            TokName "Max"; TokFloat (FloatBits 0); TokFloat (FloatBits 0);
            TokFloat (FloatBits 0)]
  ∧ loaded (serialize_FBox FBox_ForceInit) (FBox_tokens FBox_zero_extent) ∅
    = Some (FBox_ForceInit, [])
  ∧ FBox_ForceInit ≠ FBox_zero_extent.
Proof.
  split_and!.
  - intros b out m. apply serialize_FBox_save.
  - intros d b rest m. apply serialize_FBox_load.
  - reflexivity.
  - reflexivity.
  - discriminate.
Qed.

(** [FBox2D] has the same shape: ["bIsValid"] carries [Max]. *)
Lemma serialize_FBox2D_drops_bIsValid :
  saved (serialize_FBox2D FBox2D_zero_extent) ∅
  = Some [TokName "bIsValid"; TokName "X"; TokFloat (FloatBits 0);
          TokName "Y"; TokFloat (FloatBits 0);
          TokName "Min"; TokName "X"; TokFloat (FloatBits 0);
          TokName "Y"; TokFloat (FloatBits 0);
          TokName "Max"; TokName "X"; TokFloat (FloatBits 0);
          TokName "Y"; TokFloat (FloatBits 0)]
  ∧ (∀ toks, saved (serialize_FBox2D FBox2D_zero_extent) ∅ = Some toks →
             loaded (serialize_FBox2D FBox2D_ForceInit) toks ∅
             = Some (FBox2D_ForceInit, []))
  ∧ FBox2D_ForceInit ≠ FBox2D_zero_extent.
Proof.
  split_and!; [reflexivity | | discriminate].
  intros toks [= <-]. reflexivity.
Qed.

End value_codecs.

(** ** The class-reference codec *)

Section class_reference_codec.

Implicit Types (m : registry) (h : TSubclassOfType) (out rest : list token).

Lemma serialize_TSubclassOfType_save h out m :
  serialize_TSubclassOfType h (World (Saving out) m)
  = Some (h, World (Saving (out ++ [TokInt (GetIdOfTSubclassOf_loop (StdMap.entries m) h)])) m).
Proof. reflexivity. Qed.

Lemma serialize_TSubclassOfType_load d x rest m :
  serialize_TSubclassOfType d (World (Loading (TokInt x :: rest)) m)
  = Some (default TSubclassOfType_default (m !! x), World (Loading rest) m).
Proof.
  unfold serialize_TSubclassOfType, bind, is_loading, load_int, read, ret, instance.
  simpl. by rewrite GetTSubclassOfFromId_run.
Qed.

(** C3 (amended): on save the codec writes the one integer
    [GetIdOfTSubclassOf] returns, on load it reads one integer and resolves
    it with [GetTSubclassOfFromId]; neither signals an error or changes the
    registry.  A registered handle comes back as itself.  A handle that was
    never registered is saved as [INT_MIN] and, when no entry sits under
    [INT_MIN], loads as the default-constructed handle.  So the round trip
    gives the original back exactly when it is registered, or is itself the
    default-constructed handle while no entry sits under [INT_MIN]. *)
Theorem serialize_TSubclassOfType_roundtrip m h out d rest :
  ∃ id h',
    result (GetIdOfTSubclassOf h) m = Some id
    ∧ result (GetTSubclassOfFromId id) m = Some h'
    ∧ serialize_TSubclassOfType h (World (Saving out) m)
      = Some (h, World (Saving (out ++ [TokInt id])) m)
    ∧ serialize_TSubclassOfType d (World (Loading (TokInt id :: rest)) m)
      = Some (h', World (Loading rest) m)
    ∧ roundtrip_TSubclassOfType m h = Some h'
    ∧ (registered m h → h' = h)
    ∧ (¬ registered m h →
       id = INT_MIN ∧ (sentinel_free m → h' = TSubclassOfType_default))
    ∧ (h' = h ↔ registered m h ∨ (h = TSubclassOfType_default ∧ sentinel_free m)).
Proof.
  exists (GetIdOfTSubclassOf_loop (StdMap.entries m) h).
  exists (default TSubclassOfType_default
            (m !! GetIdOfTSubclassOf_loop (StdMap.entries m) h)).
  pose proof (GetIdOfTSubclassOf_loop_registered m h) as Hreg.
  pose proof (GetIdOfTSubclassOf_loop_unregistered m h) as Hunreg.
  split_and!.
  - unfold result. by rewrite GetIdOfTSubclassOf_run.
  - unfold result. by rewrite GetTSubclassOfFromId_run.
  - apply serialize_TSubclassOfType_save.
  - apply serialize_TSubclassOfType_load.
  - unfold roundtrip_TSubclassOfType, saved, loaded.
    rewrite serialize_TSubclassOfType_save. simpl.
    by rewrite serialize_TSubclassOfType_load.
  - intros Hr. by rewrite (Hreg Hr).
  - intros Hn. rewrite (Hunreg Hn). split; [done|].
    unfold sentinel_free. by intros ->.
  - destruct (decide (registered m h)) as [Hr|Hn].
    + rewrite (Hreg Hr). naive_solver.
    + rewrite (Hunreg Hn). unfold sentinel_free. split.
      * destruct (m !! INT_MIN) as [x|] eqn:Hx; simpl; intros <-.
        -- destruct Hn. by exists INT_MIN.
        -- by right.
      * intros [Hr|[-> ->]]; [done|reflexivity].
Qed.

(** C3, counterexample: on the empty registry the default-constructed
    handle is not registered, and yet the round trip gives it back. *)
Lemma unregistered_default_roundtrips :
  ¬ (roundtrip_TSubclassOfType ∅ TSubclassOfType_default
     = Some TSubclassOfType_default
     ↔ registered ∅ TSubclassOfType_default).
Proof.
  intros [Hclaim _]. destruct (Hclaim eq_refl) as [id Hid].
  rewrite lookup_empty in Hid. discriminate Hid.
Qed.

(** With an entry under [INT_MIN], a handle that is not registered loads as
    that entry's handle, not as the default-constructed one. *)
Lemma unregistered_loads_sentinel_entry :
  ¬ registered {[INT_MIN := TSubclassOf 5]} (TSubclassOf 6)
  ∧ roundtrip_TSubclassOfType {[INT_MIN := TSubclassOf 5]} (TSubclassOf 6)
    = Some (TSubclassOf 5).
Proof.
  split; [|reflexivity].
  intros [id Hid]. apply lookup_singleton_Some in Hid as [_ [=]].
Qed.

End class_reference_codec.

(** ** The dense-sequence codec *)

Section dense_sequence.

Context `{Codec E}.

Implicit Types (m : registry) (s : list E) (wires : list (list token)).

Lemma for_each_save m s wires :
  Forall2 (travels_as m) s wires →
  ∀ out, for_each serialize s (World (Saving out) m)
         = Some (s, World (Saving (out ++ concat wires)) m).
Proof.
  induction 1 as [|e toks s wires [Hsave _] _ IH]; intros out; simpl.
  - unfold ret. by rewrite app_nil_r.
  - unfold bind. rewrite Hsave, IH. unfold ret. by rewrite <- app_assoc.
Qed.

Lemma for_each_load m s wires :
  Forall2 (travels_as m) s wires →
  ∀ ds rest, length ds = length s →
             for_each serialize ds (World (Loading (concat wires ++ rest)) m)
             = Some (s, World (Loading rest) m).
Proof.
  induction 1 as [|e toks s wires [_ Hload] _ IH]; intros ds rest Hlen.
  - by destruct ds.
  - destruct ds as [|d ds]; [done|]. simpl in *.
    unfold bind. rewrite <- app_assoc, Hload, IH by lia. reflexivity.
Qed.

Lemma Num_to_size_type s :
  Z.of_nat (length s) ≤ INT_MAX →
  to_size_type (TArray.Num s) = Z.of_nat (length s).
Proof.
  intros Hlen. unfold to_size_type, TArray.Num.
  apply Z.mod_small. unfold INT_MAX in Hlen. lia.
Qed.

Lemma SetNum_loaded_size s (d : list E) :
  Z.of_nat (length s) ≤ INT_MAX →
  ∃ d1, TArray.SetNum default_constructed (wrap (Z.of_nat (length s))) d = Some d1
        ∧ length d1 = length s.
Proof.
  intros Hlen. rewrite wrap_in_range by (unfold in_range, INT_MIN; lia).
  unfold TArray.SetNum. destruct (decide (Z.of_nat (length s) < 0)); [lia|].
  eexists. split; [reflexivity|]. rewrite length_resize. lia.
Qed.

Lemma save_TArray_run m s wires out :
  Z.of_nat (length s) ≤ INT_MAX →
  Forall2 (travels_as m) s wires →
  save_TArray s (World (Saving out) m)
  = Some (tt, World (Saving (out ++ TokSizeTag (Z.of_nat (length s)) :: concat wires)) m).
Proof.
  intros Hlen Htravel.
  unfold save_TArray, bind, save_size_tag. rewrite Num_to_size_type by done.
  simpl. rewrite (for_each_save m s wires Htravel). unfold ret.
  by rewrite <- app_assoc.
Qed.

Lemma load_TArray_run m s wires (d : list E) rest :
  Z.of_nat (length s) ≤ INT_MAX →
  Forall2 (travels_as m) s wires →
  load_TArray d
    (World (Loading ((TokSizeTag (Z.of_nat (length s)) :: concat wires) ++ rest)) m)
  = Some (s, World (Loading rest) m).
Proof.
  intros Hlen Htravel.
  unfold load_TArray, bind, load_size_tag. simpl.
  destruct (SetNum_loaded_size s d Hlen) as (d1 & -> & Hd1). simpl.
  by apply for_each_load.
Qed.

(** C9 (amended): for a sequence [s] of any length that fits [TArray]
    (0, 1 or more elements), whose elements the element codec itself writes
    as [wires] and reads back from them, the save path writes a size tag
    equal to the number of elements followed by the elements' tokens in
    iteration order, and loading from what was written, into any
    destination, gives [s] itself: same length, same elements, same order.
    An element the element codec does not give back (a class reference that
    is not registered) is not given back inside an array either. *)
Theorem TArray_roundtrip m s wires out (d : list E) rest :
  Z.of_nat (length s) ≤ INT_MAX →
  Forall2 (travels_as m) s wires →
  save_TArray s (World (Saving out) m)
  = Some (tt, World (Saving (out ++ TokSizeTag (Z.of_nat (length s)) :: concat wires)) m)
  ∧ load_TArray d
      (World (Loading ((TokSizeTag (Z.of_nat (length s)) :: concat wires) ++ rest)) m)
    = Some (s, World (Loading rest) m).
Proof.
  intros Hlen Htravel. split;
    [by apply save_TArray_run | by apply load_TArray_run].
Qed.

End dense_sequence.

Section dense_sequence_instances.

(** A [TArray] whose elements travel, travels as an element itself. *)
Lemma TArray_travels `{Codec E} m (s : list E) wires :
  Z.of_nat (length s) ≤ INT_MAX →
  Forall2 (travels_as m) s wires →
  travels_as m s (TokSizeTag (Z.of_nat (length s)) :: concat wires).
Proof.
  intros Hlen Htravel. split.
  - intros out. simpl. unfold bind at 1. simpl. unfold bind at 1.
    by rewrite (save_TArray_run m s wires out Hlen Htravel).
  - intros d rest. simpl. unfold bind at 1. simpl.
    apply (load_TArray_run m s wires d rest Hlen Htravel).
Qed.

Lemma TArray_roundtrip_witness :
  Z.of_nat (length [FVector.mk (FloatBits 1) (FloatBits 2) (FloatBits 3); FVector_zero])
  ≤ INT_MAX
  ∧ Forall2 (travels_as ∅)
      [FVector.mk (FloatBits 1) (FloatBits 2) (FloatBits 3); FVector_zero]
      [FVector_tokens (FVector.mk (FloatBits 1) (FloatBits 2) (FloatBits 3));
       FVector_tokens FVector_zero]
  ∧ save_TArray [FVector.mk (FloatBits 1) (FloatBits 2) (FloatBits 3); FVector_zero]
      (World (Saving []) ∅)
    = Some (tt, World (Saving
        [TokSizeTag 2; TokFloat (FloatBits 1); TokFloat (FloatBits 2);
         TokFloat (FloatBits 3); TokFloat (FloatBits 0); TokFloat (FloatBits 0);
         TokFloat (FloatBits 0)]) ∅)
  ∧ load_TArray [FVector_zero; FVector_zero; FVector_zero]
      (World (Loading
        [TokSizeTag 2; TokFloat (FloatBits 1); TokFloat (FloatBits 2);
         TokFloat (FloatBits 3); TokFloat (FloatBits 0); TokFloat (FloatBits 0);
         TokFloat (FloatBits 0)]) ∅)
    = Some ([FVector.mk (FloatBits 1) (FloatBits 2) (FloatBits 3); FVector_zero],
            World (Loading []) ∅).
Proof.
  assert (Hlen : Z.of_nat (length [FVector.mk (FloatBits 1) (FloatBits 2) (FloatBits 3);
                                   FVector_zero]) ≤ INT_MAX)
    by (vm_compute; discriminate).
  assert (Htravel : Forall2 (travels_as ∅)
      [FVector.mk (FloatBits 1) (FloatBits 2) (FloatBits 3); FVector_zero]
      [FVector_tokens (FVector.mk (FloatBits 1) (FloatBits 2) (FloatBits 3));
       FVector_tokens FVector_zero])
    by (repeat constructor; apply FVector_travels).
  split; [exact Hlen|]. split; [exact Htravel|].
  exact (TArray_roundtrip ∅ _ _ [] [FVector_zero; FVector_zero; FVector_zero] []
           Hlen Htravel).
Defined.

(** Lengths 0, 1 and 3 on [TArray<int32>], loaded into an array that held
    something else. *)
Example TArray_int_length_0 :
  saved (save_TArray ([] : list Z)) ∅ = Some [TokSizeTag 0]
  ∧ loaded (load_TArray [7; 7]) [TokSizeTag 0] ∅ = Some ([], []).
Proof. split; reflexivity. Qed.

Example TArray_int_length_1 :
  saved (save_TArray [42]) ∅ = Some [TokSizeTag 1; TokInt 42]
  ∧ loaded (load_TArray [7; 7]) [TokSizeTag 1; TokInt 42] ∅ = Some ([42], []).
Proof. split; reflexivity. Qed.

Example TArray_int_length_3 :
  saved (save_TArray [3; 1; 3]) ∅
  = Some [TokSizeTag 3; TokInt 3; TokInt 1; TokInt 3]
  ∧ loaded (load_TArray [7; 7]) [TokSizeTag 3; TokInt 3; TokInt 1; TokInt 3] ∅
    = Some ([3; 1; 3], []).
Proof. split; reflexivity. Qed.

(** A handle that is registered travels as its identifier, so arrays of
    registered class references round-trip too. *)
Lemma registered_TSubclassOfType_travels m h :
  registered m h →
  travels_as m h [TokInt (GetIdOfTSubclassOf_loop (StdMap.entries m) h)].
Proof.
  intros Hr. split.
  - intros out. apply serialize_TSubclassOfType_save.
  - intros d rest. simpl.
    rewrite serialize_TSubclassOfType_load.
    by rewrite GetIdOfTSubclassOf_loop_registered.
Qed.

(** C9, counterexample: an array holding a class reference that is not
    registered does not come back: on the empty registry the handle is saved
    as [INT_MIN] and loads as the default-constructed handle. *)
Lemma TArray_unregistered_handle_lost :
  ¬ (∀ toks, saved (save_TArray [TSubclassOf 6]) ∅ = Some toks →
             fst <$> loaded (load_TArray ([] : list TSubclassOfType)) toks ∅
             = Some [TSubclassOf 6]).
Proof.
  intros Hclaim. specialize (Hclaim [TokSizeTag 1; TokInt INT_MIN] eq_refl).
  vm_compute in Hclaim. discriminate Hclaim.
Qed.

(** What is written and what is read there. *)
Example TArray_unregistered_handle_run :
  saved (save_TArray [TSubclassOf 6]) ∅ = Some [TokSizeTag 1; TokInt INT_MIN]
  ∧ loaded (load_TArray ([] : list TSubclassOfType)) [TokSizeTag 1; TokInt INT_MIN] ∅
    = Some ([TSubclassOfType_default], []).
Proof. split; reflexivity. Qed.

End dense_sequence_instances.

(** ** More on the registry: how the member functions compose *)

Section registry_composition.

Implicit Types (m : registry) (h : TSubclassOfType) (id : Z).

(** The identifier the reverse lookup returns for a registered handle is
    the least key holding it. *)
Lemma GetIdOfTSubclassOf_loop_least m h :
  registered m h →
  ∀ id', m !! id' = Some h → GetIdOfTSubclassOf_loop (StdMap.entries m) h ≤ id'.
Proof.
  intros [k Hk] id' Hid'. apply entries_elem_of in Hk, Hid'.
  destruct (GetIdOfTSubclassOf_loop_first _ h _ Hk eq_refl)
    as (pre & [id v] & post & Hsplit & Hv & Hpre & ->).
  simpl in *. subst v.
  pose proof (entries_sorted m) as Hsorted. rewrite Hsplit in Hsorted, Hid'.
  apply elem_of_app in Hid' as [Hin|Hin].
  - by destruct (Hpre _ Hin).
  - apply StronglySorted_app_1_r, StronglySorted_cons in Hsorted
      as [Hall Hsorted].
    apply elem_of_cons in Hin as [[= ->]|Hin]; [lia|].
    rewrite Forall_forall in Hall. apply (Hall _ Hin).
Qed.

(** The least key holding [h] is what the reverse lookup returns. *)
Lemma GetIdOfTSubclassOf_loop_unique m h id :
  m !! id = Some h → (∀ id', m !! id' = Some h → id ≤ id') →
  GetIdOfTSubclassOf_loop (StdMap.entries m) h = id.
Proof.
  intros Hid Hleast.
  assert (Hr : registered m h) by by exists id.
  pose proof (GetIdOfTSubclassOf_loop_registered m h Hr) as Hfound.
  pose proof (GetIdOfTSubclassOf_loop_least m h Hr id Hid).
  pose proof (Hleast _ Hfound). lia.
Qed.

(** X1: a handle registered under an explicit identifier is what a lookup
    of that identifier returns next, whatever was stored there before; the
    lookup of any other identifier answers as it did before the
    registration. *)
Theorem RegisterTSubclassOf_id_then_lookup m id h id' :
  (RegisterTSubclassOf_id id h ;;; GetTSubclassOfFromId id) m
  = Some (h, <[id := h]> m)
  ∧ (id' ≠ id →
     result (RegisterTSubclassOf_id id h ;;; GetTSubclassOfFromId id') m
     = result (GetTSubclassOfFromId id') m).
Proof.
  unfold RegisterTSubclassOf_id, result; st_unfold. split.
  - by rewrite GetTSubclassOfFromId_run, lookup_insert_eq.
  - intros Hne. rewrite !GetTSubclassOfFromId_run. simpl.
    by rewrite lookup_insert_ne.
Qed.

(** X2: with fewer than [INT_MAX] entries, registering under an identifier
    that is not yet a key raises [GetNumberOfRegistrations] by one, and
    registering under an identifier that is already a key leaves it as it
    was. *)
Theorem GetNumberOfRegistrations_after_register m id h :
  Z.of_nat (size m) < INT_MAX →
  result GetNumberOfRegistrations m = Some (Z.of_nat (size m))
  ∧ result (RegisterTSubclassOf_id id h ;;; GetNumberOfRegistrations) m
    = Some (match m !! id with
            | Some _ => Z.of_nat (size m)
            | None => Z.of_nat (size m) + 1
            end).
Proof.
  intros Hsize. unfold GetNumberOfRegistrations, RegisterTSubclassOf_id, result.
  st_unfold. simpl. split.
  - rewrite wrap_in_range; [done|]. unfold in_range, INT_MIN. lia.
  - destruct (m !! id) as [v|] eqn:Hid.
    + rewrite map_size_insert_Some by done.
      rewrite wrap_in_range; [done|]. unfold in_range, INT_MIN. lia.
    + rewrite map_size_insert_None by done.
      rewrite wrap_in_range; [f_equal; lia|]. unfold in_range, INT_MIN. lia.
Qed.

(** X3: after [UnregsterAll] nothing is registered: the count is 0, every
    reverse lookup returns [INT_MIN], every lookup returns the
    default-constructed handle, and the next automatic identifier is
    [INT_MIN + 1] again. *)
Theorem UnregsterAll_resets m h id :
  (UnregsterAll ;;; GetNumberOfRegistrations) m = Some (0, ∅)
  ∧ (UnregsterAll ;;; GetIdOfTSubclassOf h) m = Some (INT_MIN, ∅)
  ∧ (UnregsterAll ;;; GetTSubclassOfFromId id) m = Some (TSubclassOfType_default, ∅)
  ∧ (UnregsterAll ;;; GetNextID) m = Some (INT_MIN + 1, ∅).
Proof.
  unfold UnregsterAll; st_unfold. split_and!.
  - reflexivity.
  - reflexivity.
  - by rewrite GetTSubclassOfFromId_run, lookup_empty.
  - reflexivity.
Qed.

(** X4: registering a handle that is not registered yet, automatically and
    with room left, makes the reverse lookup of that handle return the
    identifier the scan chose, and the lookup of that identifier return the
    handle. *)
Theorem RegisterTSubclassOf_then_lookups m h f :
  ¬ registered m h → INT_MIN + 1 ≤ f ≤ INT_MAX → m !! f = None →
  ∃ NewId,
    GetNextID m = Some (NewId, m)
    ∧ (RegisterTSubclassOf h ;;;
       id <- GetIdOfTSubclassOf h ;;
       h' <- GetTSubclassOfFromId id ;;
       ret (id, h')) m
      = Some ((NewId, h), <[NewId := h]> m).
Proof.
  intros Hnew Hf Hfree.
  destruct (GetNextID_first_fit m f Hf Hfree) as (NewId & Hrun & _ & Hnone & _).
  exists NewId. split; [done|].
  unfold bind at 1. rewrite (RegisterTSubclassOf_run _ _ _ Hrun).
  unfold bind at 1. rewrite GetIdOfTSubclassOf_run.
  unfold bind, ret. rewrite GetTSubclassOfFromId_run.
  assert (Hid : GetIdOfTSubclassOf_loop (StdMap.entries (<[NewId := h]> m)) h = NewId).
  { apply GetIdOfTSubclassOf_loop_unique; [apply lookup_insert_eq|].
    intros id' Hid'. destruct (decide (id' = NewId)) as [->|Hne]; [lia|].
    rewrite lookup_insert_ne in Hid' by done. destruct Hnew. by exists id'. }
  by rewrite Hid, lookup_insert_eq.
Qed.

(** X5: after registering [h] under [id], the reverse lookup of [h] returns
    [id] when [h] was not registered before, and otherwise the smaller of
    [id] and the identifier it returned before: of the identifiers a handle
    is registered under, the least one is reported. *)
Theorem GetIdOfTSubclassOf_after_register m id h :
  result (RegisterTSubclassOf_id id h ;;; GetIdOfTSubclassOf h) m
  = Some (if decide (registered m h)
          then Z.min id (GetIdOfTSubclassOf_loop (StdMap.entries m) h)
          else id)
  ∧ result (GetIdOfTSubclassOf h) m
    = Some (GetIdOfTSubclassOf_loop (StdMap.entries m) h).
Proof.
  split; [|reflexivity].
  unfold RegisterTSubclassOf_id, result; st_unfold. simpl. f_equal.
  destruct (decide (registered m h)) as [Hr|Hn].
  - pose proof (GetIdOfTSubclassOf_loop_registered m h Hr) as Hold.
    pose proof (GetIdOfTSubclassOf_loop_least m h Hr) as Hleast.
    set (old := GetIdOfTSubclassOf_loop (StdMap.entries m) h) in *.
    apply GetIdOfTSubclassOf_loop_unique.
    + destruct (decide (Z.min id old = id)) as [->|Hne];
        [apply lookup_insert_eq|].
      rewrite lookup_insert_ne by lia. by replace (Z.min id old) with old by lia.
    + intros id' Hid'. destruct (decide (id' = id)) as [->|Hne]; [lia|].
      rewrite lookup_insert_ne in Hid' by done.
      pose proof (Hleast _ Hid'). lia.
  - apply GetIdOfTSubclassOf_loop_unique; [apply lookup_insert_eq|].
    intros id' Hid'. destruct (decide (id' = id)) as [->|Hne]; [lia|].
    rewrite lookup_insert_ne in Hid' by done. destruct Hn. by exists id'.
Qed.

(** X6: registering over an identifier silently drops the handle that was
    stored there: when that handle was registered under this identifier
    only, its reverse lookup returns [INT_MIN] afterwards. *)
Theorem RegisterTSubclassOf_id_overwrite m id h h_old :
  m !! id = Some h_old → h_old ≠ h →
  (∀ id', id' ≠ id → m !! id' ≠ Some h_old) →
  result (GetIdOfTSubclassOf h_old) m = Some id
  ∧ (RegisterTSubclassOf_id id h ;;; GetIdOfTSubclassOf h_old) m
    = Some (INT_MIN, <[id := h]> m).
Proof.
  intros Hold Hne Honly. split.
  - unfold result. rewrite GetIdOfTSubclassOf_run. simpl. f_equal.
    apply GetIdOfTSubclassOf_loop_unique; [done|].
    intros id' Hid'. destruct (decide (id' = id)) as [->|Hd]; [lia|].
    by destruct (Honly id' Hd).
  - unfold RegisterTSubclassOf_id; st_unfold. rewrite GetIdOfTSubclassOf_run.
    do 2 f_equal. apply GetIdOfTSubclassOf_loop_unregistered.
    intros [id' Hid']. destruct (decide (id' = id)) as [->|Hd].
    + rewrite lookup_insert_eq in Hid'. congruence.
    + rewrite lookup_insert_ne in Hid' by done. by destruct (Honly id' Hd).
Qed.

End registry_composition.

(** ** More on the allocation scan *)

Section allocation_more.

Implicit Types (m : registry) (h : TSubclassOfType) (id : Z).

Lemma dense_up_to_insert m k h :
  INT_MIN + 1 + k ≤ INT_MAX →
  dense_up_to m k → dense_up_to (<[INT_MIN + 1 + k := h]> m) (k + 1).
Proof.
  intros Hk [Hk0 Hdense]. split; [lia|]. intros j Hj.
  destruct (decide (j = INT_MIN + 1 + k)) as [->|Hne].
  - rewrite lookup_insert_eq. split; [lia|eauto].
  - rewrite lookup_insert_ne by done. rewrite (Hdense j Hj). lia.
Qed.

Lemma dense_up_to_GetNextID m k :
  INT_MIN + 1 + k ≤ INT_MAX → dense_up_to m k →
  GetNextID m = Some (INT_MIN + 1 + k, m).
Proof.
  intros Hk [Hk0 Hdense].
  assert (Hr : INT_MIN + 1 ≤ INT_MIN + 1 + k ≤ INT_MAX) by lia.
  assert (Hfree : m !! (INT_MIN + 1 + k) = None).
  { apply eq_None_not_Some. rewrite (Hdense _ Hr). lia. }
  destruct (GetNextID_first_fit m _ Hr Hfree) as (id & Hrun & Hid & Hnone & _).
  assert (id = INT_MIN + 1 + k) as ->; [|done].
  apply eq_None_not_Some in Hnone.
  rewrite (Hdense id) in Hnone by lia. lia.
Qed.

(** X8: on a registry whose keys above [INT_MIN] are exactly the first [k]
    identifiers (the empty registry, or one filled by automatic
    registrations only), [n] further automatic registrations get the next
    [n] identifiers in order, as long as these do not pass [INT_MAX]. *)
Theorem RegisterTSubclassOf_each_consecutive m k (hs : list TSubclassOfType) :
  dense_up_to m k →
  INT_MIN + k + Z.of_nat (length hs) ≤ INT_MAX →
  result (RegisterTSubclassOf_each hs) m
  = Some (seqZ (INT_MIN + 1 + k) (Z.of_nat (length hs))).
Proof.
  revert m k. induction hs as [|h hs IH]; intros m k Hdense Hroom; [done|].
  simpl length in Hroom.
  unfold result in *. simpl. unfold bind at 1.
  rewrite (dense_up_to_GetNextID m k) by (done || lia).
  unfold bind at 1, StdMap.assign. unfold bind.
  specialize (IH (<[INT_MIN + 1 + k := h]> m) (k + 1)
                 (dense_up_to_insert m k h ltac:(lia) Hdense) ltac:(lia)).
  destruct (RegisterTSubclassOf_each hs _) as [[ids m']|]; [|done].
  simpl in *. injection IH as ->. unfold ret. simpl. f_equal.
  rewrite (seqZ_cons _ (Z.of_nat (S (length hs)))) by lia. f_equal.
  f_equal; lia.
Qed.

End allocation_more.

(** ** Round trips of the record codecs *)

(** Proves [travels_as] for a codec of plain members, once the value is
    split into its members: saving appends the tokens one at a time, loading
    reads them off the front. *)
Ltac travels_by_members :=
  split;
  [ intros out; cbv -[app]; repeat rewrite <- app_assoc; reflexivity
  | intros d rest; reflexivity ].

Section record_codecs.

Implicit Types (m : registry).

(** X9: the fixed-arity kinds round-trip, every value of them: an
    [FVector] travels as [X, Y, Z], an [FRotator] as [Pitch, Roll, Yaw] and
    an [FQuat] as [W, X, Y, Z], and loading from these tokens gives the value
    back whatever the destination held. *)
Theorem vector_kinds_roundtrip m (v : FVector.t) (r : FRotator.t) (q : FQuat.t) :
  travels_as m v
    [TokFloat (FVector.X v); TokFloat (FVector.Y v); TokFloat (FVector.Z v)]
  ∧ travels_as m r
      [TokFloat (FRotator.Pitch r); TokFloat (FRotator.Roll r);
       TokFloat (FRotator.Yaw r)]
  ∧ travels_as m q
      [TokFloat (FQuat.W q); TokFloat (FQuat.X q); TokFloat (FQuat.Y q);
       TokFloat (FQuat.Z q)].
Proof. destruct v, r, q. split_and!; travels_by_members. Qed.

(** X10: an [FTransform] round-trips, and its wire order is rotation
    ([W, X, Y, Z]), then scale, then translation, in both directions; loading
    replaces all three components of the destination. *)
Theorem FTransform_roundtrip m (t : FTransform.t) :
  travels_as m t
    ([TokFloat (FQuat.W (FTransform.GetRotation t));
      TokFloat (FQuat.X (FTransform.GetRotation t));
      TokFloat (FQuat.Y (FTransform.GetRotation t));
      TokFloat (FQuat.Z (FTransform.GetRotation t))]
     ++ FVector_tokens (FTransform.GetScale3D t)
     ++ FVector_tokens (FTransform.GetTranslation t)).
Proof.
  destruct t as [[qx qy qz qw] [tx ty tz] [sx sy sz]]. travels_by_members.
Qed.

(** X11: every value of the smaller record kinds with [float] members
    round-trips, each member under its own name and in the order written:
    [FVector2D], [FLinearColor], [FPlane] and [FSphere]. *)
Theorem float_records_roundtrip m (v2 : FVector2D.t) (c : FLinearColor.t)
    (p : FPlane.t) (s : FSphere.t) :
  travels_as m v2
    [TokName "X"; TokFloat (FVector2D.X v2); TokName "Y"; TokFloat (FVector2D.Y v2)]
  ∧ travels_as m c
      [TokName "R"; TokFloat (FLinearColor.R c); TokName "G"; TokFloat (FLinearColor.G c);
       TokName "B"; TokFloat (FLinearColor.B c); TokName "A"; TokFloat (FLinearColor.A c)]
  ∧ travels_as m p
      [TokName "X"; TokFloat (FPlane.X p); TokName "Y"; TokFloat (FPlane.Y p);
       TokName "Z"; TokFloat (FPlane.Z p); TokName "W"; TokFloat (FPlane.W p)]
  ∧ travels_as m s
      (TokName "Center" :: FVector_tokens (FSphere.Center s)
       ++ [TokName "W"; TokFloat (FSphere.W s)]).
Proof.
  destruct v2, c, p, s as [[] ?]. split_and!; travels_by_members.
Qed.

(** X23: every value of the larger record kinds round-trips:
    [FTwoVectors], [FCapsuleShape], [FOrientedBox] (written axes first, then
    centre, then extents) and [FMatrix] (sixteen members, row by row). *)
Theorem compound_records_roundtrip m (tv : FTwoVectors.t) (cs : FCapsuleShape.t)
    (ob : FOrientedBox.t) (mx : FMatrix.t) :
  travels_as m tv
    (TokName "v1" :: FVector_tokens (FTwoVectors.v1 tv)
     ++ TokName "v2" :: FVector_tokens (FTwoVectors.v2 tv))
  ∧ travels_as m cs
      (TokName "Center" :: FVector_tokens (FCapsuleShape.Center cs)
       ++ [TokName "Radius"; TokFloat (FCapsuleShape.Radius cs)]
       ++ TokName "Orientation" :: FVector_tokens (FCapsuleShape.Orientation cs)
       ++ [TokName "Length"; TokFloat (FCapsuleShape.Length cs)])
  ∧ travels_as m ob
      (TokName "AxisX" :: FVector_tokens (FOrientedBox.AxisX ob)
       ++ TokName "AxisY" :: FVector_tokens (FOrientedBox.AxisY ob)
       ++ TokName "AxisZ" :: FVector_tokens (FOrientedBox.AxisZ ob)
       ++ TokName "Center" :: FVector_tokens (FOrientedBox.Center ob)
       ++ [TokName "ExtentX"; TokFloat (FOrientedBox.ExtentX ob);
           TokName "ExtentY"; TokFloat (FOrientedBox.ExtentY ob);
           TokName "ExtentZ"; TokFloat (FOrientedBox.ExtentZ ob)])
  ∧ travels_as m mx
      [TokName "m00"; TokFloat (FMatrix.c0 (FMatrix.r0 mx));
       TokName "m01"; TokFloat (FMatrix.c1 (FMatrix.r0 mx));
       TokName "m02"; TokFloat (FMatrix.c2 (FMatrix.r0 mx));
       TokName "m03"; TokFloat (FMatrix.c3 (FMatrix.r0 mx));
       TokName "m10"; TokFloat (FMatrix.c0 (FMatrix.r1 mx));
       TokName "m11"; TokFloat (FMatrix.c1 (FMatrix.r1 mx));
       TokName "m12"; TokFloat (FMatrix.c2 (FMatrix.r1 mx));
       TokName "m13"; TokFloat (FMatrix.c3 (FMatrix.r1 mx));
       TokName "m20"; TokFloat (FMatrix.c0 (FMatrix.r2 mx));
       TokName "m21"; TokFloat (FMatrix.c1 (FMatrix.r2 mx));
       TokName "m22"; TokFloat (FMatrix.c2 (FMatrix.r2 mx));
       TokName "m23"; TokFloat (FMatrix.c3 (FMatrix.r2 mx));
       TokName "m30"; TokFloat (FMatrix.c0 (FMatrix.r3 mx));
       TokName "m31"; TokFloat (FMatrix.c1 (FMatrix.r3 mx));
       TokName "m32"; TokFloat (FMatrix.c2 (FMatrix.r3 mx));
       TokName "m33"; TokFloat (FMatrix.c3 (FMatrix.r3 mx))].
Proof.
  destruct tv as [[] []], cs as [[] ? [] ?], ob as [[] [] [] [] ? ? ?],
    mx as [[] [] [] []].
  split_and!; travels_by_members.
Qed.

(** X12: every value of the record kinds with [int32] members round-trips:
    [FIntPoint], [FIntRect], [FIntVector] and [FIntVector4]. *)
Theorem int_records_roundtrip m (p : FIntPoint.t) (r : FIntRect.t)
    (v : FIntVector.t) (v4 : FIntVector4.t) :
  travels_as m p
    [TokName "X"; TokInt (FIntPoint.X p); TokName "Y"; TokInt (FIntPoint.Y p)]
  ∧ travels_as m r
      [TokName "Min"; TokName "X"; TokInt (FIntPoint.X (FIntRect.Min r));
       TokName "Y"; TokInt (FIntPoint.Y (FIntRect.Min r));
       TokName "Max"; TokName "X"; TokInt (FIntPoint.X (FIntRect.Max r));
       TokName "Y"; TokInt (FIntPoint.Y (FIntRect.Max r))]
  ∧ travels_as m v
      [TokName "X"; TokInt (FIntVector.X v); TokName "Y"; TokInt (FIntVector.Y v);
       TokName "Z"; TokInt (FIntVector.Z v)]
  ∧ travels_as m v4
      [TokName "X"; TokInt (FIntVector4.X v4); TokName "Y"; TokInt (FIntVector4.Y v4);
       TokName "Z"; TokInt (FIntVector4.Z v4); TokName "W"; TokInt (FIntVector4.W v4)].
Proof.
  destruct p, r as [[] []], v, v4.
  split_and!; travels_by_members.
Qed.

(** X13: the kinds saved from [GetVector()] and loaded through their
    constructor round-trip: what the save function writes is what the load
    function reads before it constructs the value, for [FQuat2D], [FScale],
    [FScale2D] and [FShear2D]. *)
Theorem split_kinds_roundtrip m (q : FQuat2D.t) (sc : FScale.t)
    (sc2 : FScale2D.t) (sh : FShear2D.t) :
  travels_as m q
    [TokName "X"; TokFloat (FVector2D.X (FQuat2D.GetVector q));
     TokName "Y"; TokFloat (FVector2D.Y (FQuat2D.GetVector q))]
  ∧ travels_as m sc
      [TokName "X"; TokFloat (FVector.X (FScale.GetVector sc));
       TokName "Y"; TokFloat (FVector.Y (FScale.GetVector sc));
       TokName "Z"; TokFloat (FVector.Z (FScale.GetVector sc))]
  ∧ travels_as m sc2
      [TokName "X"; TokFloat (FVector2D.X (FScale2D.GetVector sc2));
       TokName "Y"; TokFloat (FVector2D.Y (FScale2D.GetVector sc2))]
  ∧ travels_as m sh
      [TokName "X"; TokFloat (FVector2D.X (FShear2D.GetVector sh));
       TokName "Y"; TokFloat (FVector2D.Y (FShear2D.GetVector sh))].
Proof.
  destruct q as [[]], sc as [[]], sc2 as [[]], sh as [[]].
  split_and!; travels_by_members.
Qed.

(** X24: an [FMatrix2x2] round-trips: the save function writes the four
    entries [GetMatrix] gives under ["m00"], ["m01"], ["m10"], ["m11"], and
    the load function reads them in that order and constructs the matrix
    from them, whatever the destination held. *)
Theorem FMatrix2x2_roundtrip m (mx : FMatrix2x2.t) :
  travels_as m mx
    [TokName "m00"; TokFloat (FMatrix2x2.m00 mx);
     TokName "m01"; TokFloat (FMatrix2x2.m01 mx);
     TokName "m10"; TokFloat (FMatrix2x2.m10 mx);
     TokName "m11"; TokFloat (FMatrix2x2.m11 mx)].
Proof. destruct mx. travels_by_members. Qed.

(** Name-value pairs around a computation that moves a value. *)
Lemma make_nvp_travels `{Codec E} name m (e : E) toks :
  travels_as m e toks →
  (∀ out, make_nvp name (serialize e) (World (Saving out) m)
          = Some (e, World (Saving (out ++ TokName name :: toks)) m))
  ∧ (∀ d rest, make_nvp name (serialize d)
                 (World (Loading ((TokName name :: toks) ++ rest)) m)
               = Some (e, World (Loading rest) m)).
Proof.
  intros [Hsave Hload]. split.
  - intros out. rewrite make_nvp_save, Hsave.
    by rewrite <- app_assoc.
  - intros d rest. rewrite <- app_comm_cons, make_nvp_load. apply Hload.
Qed.

(** X14: a [TInterval<E>] round-trips when its two bounds do: it travels as
    the pair ["Min"] followed by the pair ["Max"]. *)
Theorem TInterval_roundtrip `{Codec E} m (i : TInterval.t E) wmin wmax :
  travels_as m (TInterval.Min i) wmin →
  travels_as m (TInterval.Max i) wmax →
  travels_as m i (TokName "Min" :: wmin ++ TokName "Max" :: wmax).
Proof.
  destruct i as [a b]. simpl.
  intros [Smin Lmin]%(make_nvp_travels "Min") [Smax Lmax]%(make_nvp_travels "Max").
  split.
  - intros out. simpl. unfold serialize_TInterval, bind. simpl.
    rewrite Smin, Smax. unfold ret. by rewrite <- app_assoc.
  - intros d rest.
    replace ((TokName "Min" :: wmin ++ TokName "Max" :: wmax) ++ rest)
      with ((TokName "Min" :: wmin) ++ (TokName "Max" :: wmax) ++ rest)
      by (simpl; by rewrite <- app_assoc).
    change (serialize d) with (serialize_TInterval d).
    unfold serialize_TInterval, bind.
    rewrite Lmin, Lmax. reflexivity.
Qed.

Lemma TInterval_roundtrip_witness :
  travels_as ∅ (TInterval.Min (TInterval.mk 3 8)) [TokInt 3]
  ∧ travels_as ∅ (TInterval.Max (TInterval.mk 3 8)) [TokInt 8]
  ∧ travels_as ∅ (TInterval.mk 3 8)
      (TokName "Min" :: [TokInt 3] ++ TokName "Max" :: [TokInt 8]).
Proof.
  assert (Hmin : travels_as ∅ (TInterval.Min (TInterval.mk 3 8)) [TokInt 3])
    by (split; reflexivity).
  assert (Hmax : travels_as ∅ (TInterval.Max (TInterval.mk 3 8)) [TokInt 8])
    by (split; reflexivity).
  split; [exact Hmin|]. split; [exact Hmax|].
  exact (TInterval_roundtrip ∅ (TInterval.mk 3 8) _ _ Hmin Hmax).
Defined.

End record_codecs.

(** ** More on the dense-sequence codec *)

Section dense_sequence_more.

Implicit Types (m : registry).

Lemma for_each_length {E} (f : E → St world E) (a r : list E) w w' :
  for_each f a w = Some (r, w') → length r = length a.
Proof.
  revert r w w'. induction a as [|e a IH]; intros r w w'; simpl.
  - by intros [= <- _].
  - unfold bind. destruct (f e w) as [[e' w1]|]; [|done].
    destruct (for_each f a w1) as [[a' w2]|] eqn:Ha; [|done].
    intros [= <- _]. simpl. f_equal. by eapply IH.
Qed.

(** X15: the [TArray] load converts the size tag to [int32] before it
    resizes.  So whenever it returns, the loaded array has exactly that many
    elements, whatever the destination held and whatever the element codec
    is; and a tag 2^32 too large is taken for the small one. *)
Theorem load_TArray_size `{Codec E} m (d : list E) size rest :
  (∀ r w, load_TArray d (World (Loading (TokSizeTag size :: rest)) m) = Some (r, w) →
          Z.of_nat (length r) = wrap size)
  ∧ load_TArray d (World (Loading (TokSizeTag (size + 2 ^ 32) :: rest)) m)
    = load_TArray d (World (Loading (TokSizeTag size :: rest)) m).
Proof.
  unfold load_TArray, bind, load_size_tag, from_option, TArray.SetNum. simpl.
  split_and!.
  - intros r w. destruct (decide (wrap size < 0)) as [|Hge]; [done|].
    intros Hlen%for_each_length. rewrite length_resize in Hlen. lia.
  - assert (wrap (size + 2 ^ 32) = wrap size) as ->; [|done].
    unfold wrap.
    replace (size + 2 ^ 32 - INT_MIN) with (size - INT_MIN + 1 * 2 ^ 32) by lia.
    by rewrite Z_mod_plus_full.
Qed.

Lemma Forall_roundtrips_wires `{Codec E} m (s : list E) :
  Forall (roundtrips m) s → ∃ wires, Forall2 (travels_as m) s wires.
Proof.
  induction 1 as [|e s [toks He] _ [wires IH]].
  - by exists [].
  - exists (toks :: wires). by constructor.
Qed.

Lemma TArray_roundtrips `{Codec E} m (s : list E) :
  Z.of_nat (length s) ≤ INT_MAX → Forall (roundtrips m) s → roundtrips m s.
Proof.
  intros Hlen [wires Hw]%Forall_roundtrips_wires.
  eexists. by apply TArray_travels.
Qed.

(** X16: arrays nest: an array of arrays round-trips when the elements of
    the inner arrays do (all lengths within [int32]). *)
Theorem TArray_of_TArray_roundtrips `{Codec E} m (ss : list (list E)) :
  Z.of_nat (length ss) ≤ INT_MAX →
  Forall (λ s, Z.of_nat (length s) ≤ INT_MAX ∧ Forall (roundtrips m) s) ss →
  roundtrips m ss.
Proof.
  intros Hlen Hinner. apply TArray_roundtrips; [done|].
  eapply Forall_impl; [exact Hinner|].
  intros s [Hs Hel]. by apply TArray_roundtrips.
Qed.

Lemma TArray_of_TArray_roundtrips_witness :
  Z.of_nat (length [[1; 2]; []; [3]]) ≤ INT_MAX
  ∧ Forall (λ s : list Z, Z.of_nat (length s) ≤ INT_MAX ∧ Forall (roundtrips ∅) s)
      [[1; 2]; []; [3]]
  ∧ roundtrips ∅ [[1; 2]; []; [3]].
Proof.
  assert (Hlen : Z.of_nat (length [[1; 2]; []; [3]]) ≤ INT_MAX)
    by (vm_compute; discriminate).
  assert (Hin : Forall (λ s : list Z, Z.of_nat (length s) ≤ INT_MAX
                                       ∧ Forall (roundtrips ∅) s)
                  [[1; 2]; []; [3]]).
  { repeat constructor; try (vm_compute; discriminate);
      eexists; apply int_travels. }
  split; [exact Hlen|]. split; [exact Hin|].
  exact (TArray_of_TArray_roundtrips ∅ _ Hlen Hin).
Defined.

(** X17: an array of class references round-trips when every handle in it
    is registered: it travels as the size tag followed by the handles'
    identifiers, in order. *)
Theorem TArray_of_registered_roundtrip m (hs : list TSubclassOfType) :
  Z.of_nat (length hs) ≤ INT_MAX →
  Forall (registered m) hs →
  travels_as m hs
    (TokSizeTag (Z.of_nat (length hs))
     :: ((λ h, TokInt (GetIdOfTSubclassOf_loop (StdMap.entries m) h)) <$> hs)).
Proof.
  intros Hlen Hreg.
  assert (Hw : Forall2 (travels_as m) hs
                 ((λ h, [TokInt (GetIdOfTSubclassOf_loop (StdMap.entries m) h)]) <$> hs)).
  { apply Forall2_fmap_r, Forall_Forall2_diag.
    eapply Forall_impl; [exact Hreg|].
    intros h Hh. by apply registered_TSubclassOfType_travels. }
  pose proof (TArray_travels m hs _ Hlen Hw) as Ht.
  replace (concat ((λ h, [TokInt (GetIdOfTSubclassOf_loop (StdMap.entries m) h)]) <$> hs))
    with ((λ h, TokInt (GetIdOfTSubclassOf_loop (StdMap.entries m) h)) <$> hs) in Ht;
    [exact Ht|].
  clear. induction hs as [|h hs IH]; [done|]. simpl. f_equal. exact IH.
Qed.

Lemma TArray_of_registered_roundtrip_witness :
  Z.of_nat (length [TSubclassOf 9; TSubclassOf 7; TSubclassOf 9]) ≤ INT_MAX
  ∧ Forall (registered example_registry) [TSubclassOf 9; TSubclassOf 7; TSubclassOf 9]
  ∧ travels_as example_registry [TSubclassOf 9; TSubclassOf 7; TSubclassOf 9]
      (TokSizeTag (Z.of_nat (length [TSubclassOf 9; TSubclassOf 7; TSubclassOf 9]))
       :: ((λ h, TokInt (GetIdOfTSubclassOf_loop (StdMap.entries example_registry) h))
             <$> [TSubclassOf 9; TSubclassOf 7; TSubclassOf 9])).
Proof.
  assert (Hlen : Z.of_nat (length [TSubclassOf 9; TSubclassOf 7; TSubclassOf 9])
                 ≤ INT_MAX) by (vm_compute; discriminate).
  assert (Hreg : Forall (registered example_registry)
                   [TSubclassOf 9; TSubclassOf 7; TSubclassOf 9]).
  { repeat constructor; apply (bool_decide_unpack _); vm_compute; exact I. }
  split; [exact Hlen|]. split; [exact Hreg|].
  exact (TArray_of_registered_roundtrip example_registry _ Hlen Hreg).
Defined.

End dense_sequence_more.

(** ** The set codec *)

Section set_codec.

Context `{Codec E} `{EqDecision E}.

Implicit Types (m : registry) (s l acc : list E) (wires : list (list token)).

Lemma Emplace_elem_of e acc x : x ∈ TSet.Emplace e acc ↔ x = e ∨ x ∈ acc.
Proof.
  unfold TSet.Emplace. destruct (decide (e ∈ acc)) as [Hin|Hnin].
  - split; [by right|]. by intros [->|?].
  - rewrite elem_of_app, list_elem_of_singleton. tauto.
Qed.

Lemma Emplace_NoDup e acc : NoDup acc → NoDup (TSet.Emplace e acc).
Proof.
  intros Hnd. unfold TSet.Emplace. destruct (decide (e ∈ acc)); [done|].
  apply NoDup_app. split_and!; [done| |apply NoDup_singleton].
  intros x Hx ->%list_elem_of_singleton. done.
Qed.

Lemma foldl_Emplace_elem_of l acc x :
  x ∈ foldl (λ a e, TSet.Emplace e a) acc l ↔ x ∈ acc ∨ x ∈ l.
Proof.
  revert acc. induction l as [|e l IH]; intros acc; simpl.
  - rewrite elem_of_nil. tauto.
  - rewrite IH, Emplace_elem_of, elem_of_cons. tauto.
Qed.

Lemma foldl_Emplace_NoDup l acc :
  NoDup acc → NoDup (foldl (λ a e, TSet.Emplace e a) acc l).
Proof.
  revert acc. induction l as [|e l IH]; intros acc Hnd; simpl; [done|].
  by apply IH, Emplace_NoDup.
Qed.

Lemma foldl_Emplace_fresh l acc :
  NoDup (acc ++ l) → foldl (λ a e, TSet.Emplace e a) acc l = acc ++ l.
Proof.
  revert acc. induction l as [|e l IH]; intros acc Hnd; simpl.
  - by rewrite app_nil_r.
  - unfold TSet.Emplace at 2. apply NoDup_app in Hnd as (Hacc & Hdisj & Hl).
    destruct (decide (e ∈ acc)) as [Hin|_].
    + destruct (Hdisj e Hin). left.
    + rewrite IH; [by rewrite <- app_assoc|].
      rewrite <- app_assoc. simpl. apply NoDup_app. by split_and!.
Qed.

Lemma load_TSet_loop_run m l wires :
  Forall2 (travels_as m) l wires →
  ∀ acc rest,
    load_TSet_loop (length l) acc (World (Loading (concat wires ++ rest)) m)
    = Some (foldl (λ a e, TSet.Emplace e a) acc l, World (Loading rest) m).
Proof.
  induction 1 as [|e toks l wires [_ Hload] _ IH]; intros acc rest; [done|].
  simpl. unfold bind. rewrite <- app_assoc, Hload. apply IH.
Qed.

Lemma load_TSet_run m l wires (d : list E) rest :
  Forall2 (travels_as m) l wires →
  load_TSet d
    (World (Loading ((TokSizeTag (Z.of_nat (length l)) :: concat wires) ++ rest)) m)
  = Some (foldl (λ a e, TSet.Emplace e a) [] l, World (Loading rest) m).
Proof.
  intros Hw. unfold load_TSet, bind, load_size_tag. simpl.
  rewrite Nat2Z.id. by apply load_TSet_loop_run.
Qed.

(** X18: a set round-trips as a set: the save path writes the number of
    elements and then the elements in iteration order, and loading from
    that, into any destination, gives a set with exactly the elements that
    were saved, each once; the earlier contents of the destination are
    gone. *)
Theorem TSet_roundtrip m s wires out (d : list E) rest :
  NoDup s → Z.of_nat (length s) ≤ INT_MAX →
  Forall2 (travels_as m) s wires →
  save_TSet s (World (Saving out) m)
  = Some (tt, World (Saving (out ++ TokSizeTag (Z.of_nat (length s)) :: concat wires)) m)
  ∧ ∃ r,
      load_TSet d
        (World (Loading ((TokSizeTag (Z.of_nat (length s)) :: concat wires) ++ rest)) m)
      = Some (r, World (Loading rest) m)
      ∧ NoDup r ∧ r ≡ₚ s.
Proof.
  intros Hnd Hlen Hw. split.
  - unfold save_TSet, bind, save_size_tag.
    change (TSet.Num s) with (TArray.Num s). rewrite Num_to_size_type by done.
    simpl. rewrite (for_each_save m s wires Hw). unfold ret.
    by rewrite <- app_assoc.
  - exists s. rewrite (load_TSet_run m s wires d rest Hw).
    by rewrite foldl_Emplace_fresh.
Qed.

(** X19: the set load reads a sequence with repeated elements as the set
    of its elements: loading what the [TArray] codec saved for [l] gives a
    duplicate-free set with exactly the elements of [l]. *)
Theorem load_TSet_collapses m l wires (d : list E) rest :
  Z.of_nat (length l) ≤ INT_MAX →
  Forall2 (travels_as m) l wires →
  ∃ toks r,
    save_TArray l (World (Saving []) m) = Some (tt, World (Saving toks) m)
    ∧ load_TSet d (World (Loading (toks ++ rest)) m)
      = Some (r, World (Loading rest) m)
    ∧ NoDup r ∧ (∀ x, x ∈ r ↔ x ∈ l).
Proof.
  intros Hlen Hw.
  exists (TokSizeTag (Z.of_nat (length l)) :: concat wires).
  exists (foldl (λ a e, TSet.Emplace e a) [] l).
  split_and!.
  - by rewrite (save_TArray_run m l wires [] Hlen Hw).
  - by apply load_TSet_run.
  - apply foldl_Emplace_NoDup. constructor.
  - intros x. rewrite foldl_Emplace_elem_of, elem_of_nil. tauto.
Qed.

End set_codec.

(** ** The map codec *)

Section map_codec.

Context `{Codec K} `{Codec V} `{EqDecision K}.

Implicit Types (m : registry) (l acc : list (K * V)) (wires : list (list token)).

Lemma TMap_Emplace_fresh k v acc :
  k ∉ acc.*1 → TMap.Emplace k v acc = acc ++ [(k, v)].
Proof.
  induction acc as [|p acc IH]; intros Hk; simpl; [done|].
  rewrite fmap_cons, not_elem_of_cons in Hk. destruct Hk as [Hne Hk].
  destruct (decide (p.1 = k)) as [Heq|_]; [by destruct Hne|].
  by rewrite IH.
Qed.

Lemma TMap_Emplace_keys k v acc :
  (TMap.Emplace k v acc).*1 = if decide (k ∈ acc.*1) then acc.*1 else acc.*1 ++ [k].
Proof.
  induction acc as [|p acc IH].
  - destruct (decide (k ∈ ([] : list (K * V)).*1)) as [Hin|_];
      [by apply elem_of_nil in Hin|done].
  - rewrite fmap_cons. simpl TMap.Emplace.
    destruct (decide (p.1 = k)) as [<-|Hne].
    + clear IH. rewrite fmap_cons. simpl. case_decide as Hnin; [done|].
      destruct Hnin. left.
    + rewrite fmap_cons, IH. clear IH.
      destruct (decide (k ∈ acc.*1)) as [Hin|Hnin]; case_decide as Hin'.
      * done.
      * destruct Hin'. by right.
      * apply elem_of_cons in Hin' as [->|Hin']; [by destruct Hne|by destruct Hnin].
      * done.
Qed.

Lemma TMap_Emplace_NoDup k v acc :
  NoDup acc.*1 → NoDup (TMap.Emplace k v acc).*1.
Proof.
  intros Hnd. rewrite TMap_Emplace_keys.
  destruct (decide (k ∈ acc.*1)) as [|Hnin]; [done|].
  apply NoDup_app. split_and!; [done| |apply NoDup_singleton].
  intros x Hx ->%list_elem_of_singleton. done.
Qed.

Lemma TMap_Emplace_elem_of k v acc k' v' :
  NoDup acc.*1 →
  (k', v') ∈ TMap.Emplace k v acc
  ↔ (k' = k ∧ v' = v) ∨ (k' ≠ k ∧ (k', v') ∈ acc).
Proof.
  induction acc as [|[pk pv] acc IH]; intros Hnd; simpl.
  - rewrite list_elem_of_singleton, elem_of_nil. split.
    + intros [= -> ->]. by left.
    + intros [[-> ->]|[_ []]]. done.
  - apply NoDup_cons in Hnd as [Hpk Hnd]. simpl in *.
    destruct (decide (pk = k)) as [->|Hne].
    + rewrite !elem_of_cons. split.
      * intros [[= -> ->]|Hin]; [by left|]. right. split; [|by right].
        intros ->. apply Hpk. apply list_elem_of_fmap. by exists (k, v').
      * intros [[-> ->]|[Hk [[= -> ->]|Hin]]]; [by left|done|by right].
    + rewrite !elem_of_cons, (IH Hnd). split.
      * intros [[= -> ->]|[?|[? ?]]]; [right; split; [done|by left] |by left|].
        right. split; [done|by right].
      * intros [?|[? [[= -> ->]|?]]]; [right; by left|by left|].
        right. by right.
Qed.

Lemma assoc_last_snoc k l (p : K * V) :
  assoc_last k (l ++ [p])
  = if decide (p.1 = k) then Some p.2 else assoc_last k l.
Proof.
  induction l as [|q l IH]; simpl.
  - by destruct (decide (p.1 = k)).
  - rewrite IH. destruct (decide (p.1 = k)); [done|].
    by destruct (assoc_last k l).
Qed.

Lemma foldl_TMap_Emplace_NoDup l acc :
  NoDup acc.*1 → NoDup (foldl (λ a p, TMap.Emplace p.1 p.2 a) acc l).*1.
Proof.
  revert acc. induction l as [|p l IH]; intros acc Hnd; simpl; [done|].
  by apply IH, TMap_Emplace_NoDup.
Qed.

Lemma foldl_TMap_Emplace_last l k v :
  (k, v) ∈ foldl (λ a p, TMap.Emplace p.1 p.2 a) [] l ↔ assoc_last k l = Some v.
Proof.
  induction l as [|p l IH] using rev_ind.
  - simpl. rewrite elem_of_nil. split; [intros []|discriminate].
  - rewrite foldl_app, assoc_last_snoc. simpl.
    rewrite TMap_Emplace_elem_of
      by (apply foldl_TMap_Emplace_NoDup; constructor).
    rewrite IH. destruct (decide (p.1 = k)) as [<-|Hne]; intuition congruence.
Qed.

Lemma foldl_TMap_Emplace_fresh l acc :
  NoDup (acc ++ l).*1 →
  foldl (λ a p, TMap.Emplace p.1 p.2 a) acc l = acc ++ l.
Proof.
  revert acc. induction l as [|p l IH]; intros acc Hnd; simpl.
  - by rewrite app_nil_r.
  - destruct p as [k v]. rewrite TMap_Emplace_fresh.
    + rewrite IH; rewrite <- app_assoc; [done|exact Hnd].
    + rewrite fmap_app in Hnd. apply NoDup_app in Hnd as (_ & Hdisj & _).
      intros Hin. apply (Hdisj _ Hin). rewrite fmap_cons. left.
Qed.

Lemma make_map_item_save m (p : K * V) toks out :
  pair_travels_as m p toks →
  make_map_item p.1 p.2 (World (Saving out) m)
  = Some (p, World (Saving (out ++ toks)) m).
Proof.
  intros (wk & wv & [Sk _]%(make_nvp_travels "key")
          & [Sv _]%(make_nvp_travels "value") & ->).
  unfold make_map_item, bind. rewrite Sk, Sv. unfold ret.
  destruct p. simpl. by rewrite <- app_assoc.
Qed.

Lemma make_map_item_load m (p : K * V) toks (dk : K) (dv : V) rest :
  pair_travels_as m p toks →
  make_map_item dk dv (World (Loading (toks ++ rest)) m)
  = Some (p, World (Loading rest) m).
Proof.
  intros (wk & wv & [_ Lk]%(make_nvp_travels "key")
          & [_ Lv]%(make_nvp_travels "value") & ->).
  replace ((TokName "key" :: wk ++ TokName "value" :: wv) ++ rest)
    with ((TokName "key" :: wk) ++ (TokName "value" :: wv) ++ rest)
    by (simpl; by rewrite <- app_assoc).
  unfold make_map_item, bind. rewrite Lk, Lv. by destruct p.
Qed.

Lemma for_each_map_item_save m l wires :
  Forall2 (pair_travels_as m) l wires →
  ∀ out, for_each (λ p, make_map_item p.1 p.2) l (World (Saving out) m)
         = Some (l, World (Saving (out ++ concat wires)) m).
Proof.
  induction 1 as [|p toks l wires Hp _ IH]; intros out; simpl.
  - unfold ret. by rewrite app_nil_r.
  - unfold bind. rewrite (make_map_item_save m p toks out Hp), IH.
    unfold ret. by rewrite <- app_assoc.
Qed.

Lemma load_TMap_run m l wires (d : list (K * V)) rest :
  Forall2 (pair_travels_as m) l wires →
  load_TMap d
    (World (Loading ((TokSizeTag (Z.of_nat (length l)) :: concat wires) ++ rest)) m)
  = Some (foldl (λ a p, TMap.Emplace p.1 p.2 a) [] l, World (Loading rest) m).
Proof.
  intros Hw. unfold load_TMap, bind, load_size_tag. simpl.
  rewrite Nat2Z.id. unfold TMap.Reserve, TMap.Empty. generalize (@nil (K * V)).
  induction Hw as [|p toks l wires Hp _ IH]; intros acc; [done|].
  simpl. unfold bind. rewrite <- app_assoc.
  rewrite (make_map_item_load m p toks _ _ _ Hp). apply IH.
Qed.

(** X20: a map round-trips as a map: the save path writes the number of
    pairs and then each pair as a ["key"] and a ["value"], in iteration
    order, and loading from that, into any destination, gives a map with
    exactly the pairs that were saved, each once, under pairwise different
    keys; the earlier contents of the destination are gone. *)
Theorem TMap_roundtrip m l wires out (d : list (K * V)) rest :
  NoDup l.*1 → Z.of_nat (length l) ≤ INT_MAX →
  Forall2 (pair_travels_as m) l wires →
  save_TMap l (World (Saving out) m)
  = Some (tt, World (Saving (out ++ TokSizeTag (Z.of_nat (length l)) :: concat wires)) m)
  ∧ ∃ r,
      load_TMap d
        (World (Loading ((TokSizeTag (Z.of_nat (length l)) :: concat wires) ++ rest)) m)
      = Some (r, World (Loading rest) m)
      ∧ NoDup r.*1 ∧ r ≡ₚ l.
Proof.
  intros Hnd Hlen Hw. split.
  - unfold save_TMap, bind, save_size_tag.
    change (TMap.Num l) with (TArray.Num l). rewrite Num_to_size_type by done.
    simpl. rewrite (for_each_map_item_save m l wires Hw). unfold ret.
    by rewrite <- app_assoc.
  - exists l. rewrite (load_TMap_run m l wires d rest Hw).
    by rewrite foldl_TMap_Emplace_fresh.
Qed.

(** X21: when the input repeats a key, the map load keeps one pair per key
    and the last value read for it wins: the loaded map has pairwise
    different keys, and holds [(k, v)] exactly when [v] is the value of the
    last pair with key [k] in the input. *)
Theorem load_TMap_last_wins m l wires (d : list (K * V)) rest :
  Forall2 (pair_travels_as m) l wires →
  ∃ r,
    load_TMap d
      (World (Loading ((TokSizeTag (Z.of_nat (length l)) :: concat wires) ++ rest)) m)
    = Some (r, World (Loading rest) m)
    ∧ NoDup r.*1
    ∧ ∀ k v, (k, v) ∈ r ↔ assoc_last k l = Some v.
Proof.
  intros Hw. exists (foldl (λ a p, TMap.Emplace p.1 p.2 a) [] l). split_and!.
  - by apply load_TMap_run.
  - apply foldl_TMap_Emplace_NoDup. constructor.
  - intros k v. apply foldl_TMap_Emplace_last.
Qed.

End map_codec.

(** ** The container statements on concrete sets and maps *)

Section container_witnesses.

Lemma TSet_roundtrip_witness :
  NoDup [3; 1; 2] ∧ Z.of_nat (length [3; 1; 2]) ≤ INT_MAX
  ∧ Forall2 (travels_as ∅) [3; 1; 2] [[TokInt 3]; [TokInt 1]; [TokInt 2]]
  ∧ save_TSet [3; 1; 2] (World (Saving []) ∅)
    = Some (tt, World (Saving [TokSizeTag 3; TokInt 3; TokInt 1; TokInt 2]) ∅)
  ∧ ∃ r,
      load_TSet [7; 8]
        (World (Loading ([TokSizeTag 3; TokInt 3; TokInt 1; TokInt 2] ++ [])) ∅)
      = Some (r, World (Loading []) ∅)
      ∧ NoDup r ∧ r ≡ₚ [3; 1; 2].
Proof.
  assert (Hnd : NoDup [3; 1; 2]) by (apply (bool_decide_unpack _); vm_compute; exact I).
  assert (Hlen : Z.of_nat (length [3; 1; 2]) ≤ INT_MAX) by (vm_compute; discriminate).
  assert (Hw : Forall2 (travels_as ∅) [3; 1; 2] [[TokInt 3]; [TokInt 1]; [TokInt 2]])
    by (repeat constructor; apply int_travels).
  split; [exact Hnd|]. split; [exact Hlen|]. split; [exact Hw|].
  exact (TSet_roundtrip ∅ [3; 1; 2] _ [] [7; 8] [] Hnd Hlen Hw).
Defined.

Lemma load_TSet_collapses_witness :
  Z.of_nat (length [3; 1; 3]) ≤ INT_MAX
  ∧ Forall2 (travels_as ∅) [3; 1; 3] [[TokInt 3]; [TokInt 1]; [TokInt 3]]
  ∧ ∃ toks r,
      save_TArray [3; 1; 3] (World (Saving []) ∅) = Some (tt, World (Saving toks) ∅)
      ∧ load_TSet [] (World (Loading (toks ++ [])) ∅)
        = Some (r, World (Loading []) ∅)
      ∧ NoDup r ∧ (∀ x, x ∈ r ↔ x ∈ [3; 1; 3]).
Proof.
  assert (Hlen : Z.of_nat (length [3; 1; 3]) ≤ INT_MAX) by (vm_compute; discriminate).
  assert (Hw : Forall2 (travels_as ∅) [3; 1; 3] [[TokInt 3]; [TokInt 1]; [TokInt 3]])
    by (repeat constructor; apply int_travels).
  split; [exact Hlen|]. split; [exact Hw|].
  exact (load_TSet_collapses ∅ [3; 1; 3] _ [] [] Hlen Hw).
Defined.

Lemma int_pair_travels m (k v : Z) :
  pair_travels_as m (k, v) [TokName "key"; TokInt k; TokName "value"; TokInt v].
Proof. exists [TokInt k], [TokInt v]. split_and!; [apply int_travels..|done]. Qed.

Lemma TMap_roundtrip_witness :
  NoDup [(1, 10); (2, 20)].*1 ∧ Z.of_nat (length [(1, 10); (2, 20)]) ≤ INT_MAX
  ∧ Forall2 (pair_travels_as ∅) [(1, 10); (2, 20)]
      [[TokName "key"; TokInt 1; TokName "value"; TokInt 10];
       [TokName "key"; TokInt 2; TokName "value"; TokInt 20]]
  ∧ save_TMap [(1, 10); (2, 20)] (World (Saving []) ∅)
    = Some (tt, World (Saving
        [TokSizeTag 2; TokName "key"; TokInt 1; TokName "value"; TokInt 10;
         TokName "key"; TokInt 2; TokName "value"; TokInt 20]) ∅)
  ∧ ∃ r,
      load_TMap [(5, 5)]
        (World (Loading
          ([TokSizeTag 2; TokName "key"; TokInt 1; TokName "value"; TokInt 10;
            TokName "key"; TokInt 2; TokName "value"; TokInt 20] ++ [])) ∅)
      = Some (r, World (Loading []) ∅)
      ∧ NoDup r.*1 ∧ r ≡ₚ [(1, 10); (2, 20)].
Proof.
  assert (Hnd : NoDup [(1, 10); (2, 20)].*1)
    by (apply (bool_decide_unpack _); vm_compute; exact I).
  assert (Hlen : Z.of_nat (length [(1, 10); (2, 20)]) ≤ INT_MAX)
    by (vm_compute; discriminate).
  assert (Hw : Forall2 (pair_travels_as ∅) [(1, 10); (2, 20)]
      [[TokName "key"; TokInt 1; TokName "value"; TokInt 10];
       [TokName "key"; TokInt 2; TokName "value"; TokInt 20]])
    by (repeat constructor; apply int_pair_travels).
  split; [exact Hnd|]. split; [exact Hlen|]. split; [exact Hw|].
  exact (TMap_roundtrip ∅ [(1, 10); (2, 20)] _ [] [(5, 5)] [] Hnd Hlen Hw).
Defined.

Lemma load_TMap_last_wins_witness :
  Forall2 (pair_travels_as ∅) [(1, 10); (2, 20); (1, 30)]
    [[TokName "key"; TokInt 1; TokName "value"; TokInt 10];
     [TokName "key"; TokInt 2; TokName "value"; TokInt 20];
     [TokName "key"; TokInt 1; TokName "value"; TokInt 30]]
  ∧ ∃ r : list (Z * Z),
      load_TMap ([] : list (Z * Z))
        (World (Loading
          ((TokSizeTag (Z.of_nat (length [(1, 10); (2, 20); (1, 30)]))
            :: concat [[TokName "key"; TokInt 1; TokName "value"; TokInt 10];
                       [TokName "key"; TokInt 2; TokName "value"; TokInt 20];
                       [TokName "key"; TokInt 1; TokName "value"; TokInt 30]])
           ++ [])) ∅)
      = Some (r, World (Loading []) ∅)
      ∧ NoDup r.*1
      ∧ ∀ k v : Z, (k, v) ∈ r ↔ assoc_last k [(1, 10); (2, 20); (1, 30)] = Some v.
Proof.
  assert (Hw : Forall2 (pair_travels_as ∅) [(1, 10); (2, 20); (1, 30)]
    [[TokName "key"; TokInt 1; TokName "value"; TokInt 10];
     [TokName "key"; TokInt 2; TokName "value"; TokInt 20];
     [TokName "key"; TokInt 1; TokName "value"; TokInt 30]])
    by (repeat constructor; apply int_pair_travels).
  split; [exact Hw|].
  exact (load_TMap_last_wins ∅ [(1, 10); (2, 20); (1, 30)] _ [] [] Hw).
Defined.

End container_witnesses.

(** ** The registry statements on concrete registries, continued *)

Section registry_witnesses_more.

Lemma GetNumberOfRegistrations_after_register_witness :
  Z.of_nat (size example_registry) < INT_MAX
  ∧ result GetNumberOfRegistrations example_registry
    = Some (Z.of_nat (size example_registry))
  ∧ result (RegisterTSubclassOf_id 100 (TSubclassOf 1) ;;; GetNumberOfRegistrations)
      example_registry
    = Some (match example_registry !! 100 with
            | Some _ => Z.of_nat (size example_registry)
            | None => Z.of_nat (size example_registry) + 1
            end).
Proof.
  assert (H : Z.of_nat (size example_registry) < INT_MAX) by (vm_compute; reflexivity).
  split; [exact H|].
  exact (GetNumberOfRegistrations_after_register example_registry 100 (TSubclassOf 1) H).
Defined.

Lemma RegisterTSubclassOf_then_lookups_witness :
  ¬ registered example_registry (TSubclassOf 42)
  ∧ INT_MIN + 1 ≤ 0 ≤ INT_MAX ∧ example_registry !! 0 = None
  ∧ ∃ NewId,
      GetNextID example_registry = Some (NewId, example_registry)
      ∧ (RegisterTSubclassOf (TSubclassOf 42) ;;;
         id <- GetIdOfTSubclassOf (TSubclassOf 42) ;;
         h' <- GetTSubclassOfFromId id ;;
         ret (id, h')) example_registry
        = Some ((NewId, TSubclassOf 42), <[NewId := TSubclassOf 42]> example_registry).
Proof.
  assert (Hn : ¬ registered example_registry (TSubclassOf 42))
    by (apply (bool_decide_eq_false_1 _); vm_compute; reflexivity).
  assert (Hr : INT_MIN + 1 ≤ 0 ≤ INT_MAX) by (unfold INT_MIN, INT_MAX; lia).
  assert (Hf : example_registry !! 0 = None) by (vm_compute; reflexivity).
  split; [exact Hn|]. split; [exact Hr|]. split; [exact Hf|].
  exact (RegisterTSubclassOf_then_lookups example_registry (TSubclassOf 42) 0 Hn Hr Hf).
Defined.

Lemma RegisterTSubclassOf_id_overwrite_witness :
  example_registry !! 5 = Some (TSubclassOf 9)
  ∧ TSubclassOf 9 ≠ TSubclassOf 1
  ∧ (∀ id', id' ≠ 5 → example_registry !! id' ≠ Some (TSubclassOf 9))
  ∧ result (GetIdOfTSubclassOf (TSubclassOf 9)) example_registry = Some 5
  ∧ (RegisterTSubclassOf_id 5 (TSubclassOf 1) ;;; GetIdOfTSubclassOf (TSubclassOf 9))
      example_registry
    = Some (INT_MIN, <[5 := TSubclassOf 1]> example_registry).
Proof.
  assert (Hold : example_registry !! 5 = Some (TSubclassOf 9))
    by (vm_compute; reflexivity).
  assert (Hne : TSubclassOf 9 ≠ TSubclassOf 1) by discriminate.
  assert (Honly : ∀ id', id' ≠ 5 → example_registry !! id' ≠ Some (TSubclassOf 9)).
  { intros id' Hid' Hlook. unfold example_registry in Hlook.
    repeat (apply lookup_insert_Some in Hlook as [[_ Heq]|[_ Hlook]];
            [discriminate Heq|]).
    apply lookup_insert_Some in Hlook as [[Hk _]|[_ Hlook]]; [by destruct Hid'|].
    by rewrite lookup_empty in Hlook. }
  split; [exact Hold|]. split; [exact Hne|]. split; [exact Honly|].
  exact (RegisterTSubclassOf_id_overwrite example_registry 5 (TSubclassOf 1)
           (TSubclassOf 9) Hold Hne Honly).
Defined.

Lemma RegisterTSubclassOf_each_consecutive_witness :
  dense_up_to ∅ 0
  ∧ INT_MIN + 0 + Z.of_nat (length [TSubclassOf 4; TSubclassOf 5; TSubclassOf 4])
    ≤ INT_MAX
  ∧ result (RegisterTSubclassOf_each [TSubclassOf 4; TSubclassOf 5; TSubclassOf 4]) ∅
    = Some (seqZ (INT_MIN + 1 + 0)
              (Z.of_nat (length [TSubclassOf 4; TSubclassOf 5; TSubclassOf 4]))).
Proof.
  assert (Hd : dense_up_to (∅ : registry) 0).
  { split; [lia|]. intros j Hj. rewrite lookup_empty. split; [by intros [? ?]|lia]. }
  assert (Hroom : INT_MIN + 0
                  + Z.of_nat (length [TSubclassOf 4; TSubclassOf 5; TSubclassOf 4])
                  ≤ INT_MAX) by (vm_compute; discriminate).
  split; [exact Hd|]. split; [exact Hroom|].
  exact (RegisterTSubclassOf_each_consecutive ∅ 0 _ Hd Hroom).
Defined.

End registry_witnesses_more.

(** ** The 2D box *)

Section box2d.

(** X22: [serialize(A&, FBox2D&)] moves [Min] and [Max] faithfully but not
    the flag: it writes [Max] under the name ["bIsValid"], then ["Min"] and
    ["Max"], never the member [bIsValid], and a load leaves the destination's
    flag as it was.  So what comes back is the saved box exactly when the
    destination's flag already agreed with it. *)
Theorem serialize_FBox2D_roundtrip m (b d : FBox2D.t) out rest :
  ∃ toks,
    serialize_FBox2D b (World (Saving out) m)
    = Some (b, World (Saving (out ++ toks)) m)
    ∧ serialize_FBox2D d (World (Loading (toks ++ rest)) m)
      = Some (FBox2D.mk (FBox2D.Min b) (FBox2D.Max b) (FBox2D.bIsValid d),
              World (Loading rest) m)
    ∧ (FBox2D.mk (FBox2D.Min b) (FBox2D.Max b) (FBox2D.bIsValid d) = b
       ↔ FBox2D.bIsValid d = FBox2D.bIsValid b)
    ∧ toks = TokName "bIsValid" :: TokName "X" :: TokFloat (FVector2D.X (FBox2D.Max b))
             :: TokName "Y" :: TokFloat (FVector2D.Y (FBox2D.Max b))
             :: TokName "Min" :: TokName "X" :: TokFloat (FVector2D.X (FBox2D.Min b))
             :: TokName "Y" :: TokFloat (FVector2D.Y (FBox2D.Min b))
             :: TokName "Max" :: TokName "X" :: TokFloat (FVector2D.X (FBox2D.Max b))
             :: TokName "Y" :: [TokFloat (FVector2D.Y (FBox2D.Max b))].
Proof.
  destruct b as [[nx ny] [xx xy] bv], d as [dmin dmax dv].
  eexists. split_and!; [| |split|reflexivity].
  - cbv -[app]. repeat rewrite <- app_assoc. reflexivity.
  - reflexivity.
  - by intros [= ->].
  - simpl. by intros ->.
Qed.

End box2d.
